(** * The swap client of lightning-loop: [client/client.go]

    A shallow embedding of the [Client] type and of its entry points
    [Run], [resumeSwaps], [Uncharge], [UnchargeQuote] and
    [waitForInitialized].

    Straight-line code is embedded as functions.  The goroutines of the
    client ([Run], the resume goroutine it starts, and concurrent
    [Uncharge] calls) are embedded as a thread pool over one shared
    [Client]: every thread carries a program point named after the source
    line it is about to execute, and a step relation interleaves them.
    Channels that are only ever closed ([resumeReady], the executor's
    [ready]) are booleans: [true] once closed. *)

From Stdlib Require Import ZArith QArith Qround Lia.
From stdpp Require Import base tactics option list numbers strings relations.

Set Default Proof Using "Type".
Local Open Scope Z_scope.

(** ** Errors *)

(** Go [error] values.  The package-level sentinels of [client.go] are
    compared by identity in Go and get a constructor each; [nil] is
    [None : option error]. *)
Inductive error : Type :=
| context_Canceled
| context_DeadlineExceeded
| ErrSwapFeeTooHigh
| ErrPrepayAmountTooHigh
| ErrSwapAmountTooLow
| ErrSwapAmountTooHigh
| ErrExpiryTooSoon
| ErrExpiryTooFar
| errors_New (msg : string)
| fmt_Errorf (format : string) (v : error)
| collaborator_error (msg : string).

#[global] Instance error_eq_dec : EqDecision error.
Proof. solve_decision. Defined.

(** [errors.New("swap client can only be started once")], line 128. *)
Definition errStartedOnce : error :=
  errors_New "swap client can only be started once".

(** A call that returns [(value, error)]. *)
Definition result (A : Type) : Type := (A + error)%type.

(** ** Data *)

(** [lntypes.Hash]: a 32-byte value, read as a 256-bit number. *)
Definition lntypes_Hash : Type := Z.

(** [btcutil.Amount]: an [int64] number of satoshis. *)
Definition btcutil_Amount : Type := Z.

(** Modelled from the spec: the state of a swap record (its declaration is
    not in [client.go]).  Section 3: categories Pending (initiated,
    htlc-broadcast, awaiting-confirmation, off-chain-settled) and Terminal
    (success, failed, expired). *)
Inductive SwapState : Type :=
| StateInitiated
| StateHtlcBroadcast
| StateAwaitingConfirmation
| StateOffchainSettled
| StateSuccess
| StateFailed
| StateExpired.

Inductive SwapStateType : Type :=
| StateTypePending
| StateTypeTerminal.

#[global] Instance SwapState_eq_dec : EqDecision SwapState.
Proof. solve_decision. Defined.

#[global] Instance SwapStateType_eq_dec : EqDecision SwapStateType.
Proof. solve_decision. Defined.

(** Modelled from the spec: [Type()] classifies a state as Pending or
    Terminal for resume filtering. *)
Definition SwapState_Type (s : SwapState) : SwapStateType :=
  match s with
  | StateInitiated | StateHtlcBroadcast
  | StateAwaitingConfirmation | StateOffchainSettled => StateTypePending
  | StateSuccess | StateFailed | StateExpired => StateTypeTerminal
  end.

(** [UnchargeRequest], as far as [Uncharge] reads it (lines 229-232). *)
Record UnchargeRequest : Type := {
  Amount : btcutil_Amount;
  DestAddr : string;
  UnchargeChannel : option Z;
}.

(** Modelled from the spec: the persisted swap record (section 3), with
    the attributes the client reads: identifier hash, current state,
    creation height and request parameters. *)
Record PersistentUncharge : Type := {
  Hash : lntypes_Hash;
  State : SwapState;
  InitiationHeight : Z;
  Contract : UnchargeRequest;
}.

(** The in-memory swap object handed to the executor; [Uncharge] returns
    [&swap.hash] (line 257). *)
Record unchargeSwap : Type := {
  hash : lntypes_Hash;
  initiationHeight : Z;
  request : UnchargeRequest;
}.

#[global] Instance UnchargeRequest_eq_dec : EqDecision UnchargeRequest.
Proof. solve_decision. Defined.

#[global] Instance PersistentUncharge_eq_dec : EqDecision PersistentUncharge.
Proof. solve_decision. Defined.

#[global] Instance unchargeSwap_eq_dec : EqDecision unchargeSwap.
Proof. solve_decision. Defined.

(** [UnchargeTerms], as far as [UnchargeQuote] reads it (lines 271-296).
    The fee rate is a rational: the spec's example uses the rate 0.01. *)
Record UnchargeTerms : Type := {
  MinSwapAmount : btcutil_Amount;
  MaxSwapAmount : btcutil_Amount;
  SwapFeeBase : btcutil_Amount;
  SwapFeeRate : Q;
  PrepayAmt : btcutil_Amount;
  SwapPaymentDest : list Z;
}.

(** [UnchargeQuoteRequest]; its [Amount] field is [QuoteAmount] here, the
    name [Amount] being taken by [UnchargeRequest]. *)
Record UnchargeQuoteRequest : Type := {
  QuoteAmount : btcutil_Amount;
  SweepConfTarget : Z;
}.

(** The quote built at lines 293-297. *)
Record UnchargeQuote_t : Type := {
  SwapFee : btcutil_Amount;
  MinerFee : btcutil_Amount;
  PrepayAmount : btcutil_Amount;
}.

(** Modelled from the spec: [utils.CalcFee] is not in [client.go].  Section
    4.3: the swap fee is the base fee plus the rate over the amount; the
    result is a [btcutil.Amount], so the rate's share is rounded down to
    whole satoshis. *)
Definition CalcFee (amount feeBase : btcutil_Amount) (feeRate : Q)
    : btcutil_Amount :=
  feeBase + Qfloor (feeRate * inject_Z amount).

(** ** Contexts *)

(** A [context.Context]: the context it was derived from, and [Err()]
    ([None] while it is not done). *)
Record context : Type := {
  parent : option nat;
  err : option error;
}.

Definition ctx_Err (ctxs : list context) (c : nat) : option error :=
  ctxs !! c ≫= err.

(** Cancelling (or expiring) context [c] with error [e]: [c] and the
    contexts derived from it become done, unless they already are. *)
Definition cancel_entry (c : nat) (e : error) (i : nat) (x : context) : context :=
  match err x with
  | Some _ => x
  | None =>
      if bool_decide (i = c) || bool_decide (parent x = Some c)
      then {| parent := parent x; err := Some e |}
      else x
  end.

Definition cancel (c : nat) (e : error) (ctxs : list context) : list context :=
  imap (cancel_entry c e) ctxs.

(** [context.WithCancel(ctx)]: a new context derived from [c], already
    done when [c] is. *)
Definition WithCancel (c : nat) (ctxs : list context) : nat * list context :=
  (length ctxs, ctxs ++ [{| parent := Some c; err := ctx_Err ctxs c |}]).

(** ** Select on a gate and a context *)

Inductive select_result : Type :=
| SelBlocked
| SelGate
| SelDone (e : error).

(** [select { case <-gate: ; case <-ctx.Done(): return ctx.Err() }] for a
    channel [gate] that is only ever closed.  When both cases can proceed
    Go picks one of them at random: [pick_gate] is that pick. *)
Definition select_gate (gate : bool) (ctxErr : option error)
    (pick_gate : bool) : select_result :=
  match gate, ctxErr with
  | false, None => SelBlocked
  | true, None => SelGate
  | false, Some e => SelDone e
  | true, Some e => if pick_gate then SelGate else SelDone e
  end.

Inductive wait_result : Type :=
| WaitBlocked
| WaitReturned (e : option error).

(** [waitForInitialized] (lines 308-322), run against one snapshot of the
    two gates and of the context. *)
Definition waitForInitialized (executor_ready resumeReady : bool)
    (ctxErr : option error) (pick1 pick2 : bool) : wait_result :=
  match select_gate executor_ready ctxErr pick1 with
  | SelBlocked => WaitBlocked
  | SelDone e => WaitReturned (Some e)
  | SelGate =>
      match select_gate resumeReady ctxErr pick2 with
      | SelBlocked => WaitBlocked
      | SelDone e => WaitReturned (Some e)
      | SelGate => WaitReturned None
      end
  end.

(** ** The client and the world around it *)

(** Modelled from the spec: the executor (its code is not in [client.go]).
    Section 4.1: [ready] is the readiness signal, set once the main loop is
    listening; [units] are the running execution units; once [run] has
    returned the executor is [stopped]; [height] is the last observed block
    height. *)
Record executor : Type := {
  ready : bool;
  stopped : bool;
  units : list unchargeSwap;
  height : Z;
}.

Definition newExecutor : executor :=
  {| ready := false; stopped := false; units := []; height := 0 |}.

(** The [Client] struct (lines 51-63).  [started] is the [uint32] flag,
    [resumeReady] the channel closed by the resume goroutine, [wg] the
    counter of the wait group, [Store] the contents of the swap store. *)
Record Client : Type := {
  started : Z;
  executor_ : executor;
  resumeReady : bool;
  wg : Z;
  Store : list PersistentUncharge;
}.

(** [NewClient] (lines 66-113), over a store with the given contents. *)
Definition NewClient (store : list PersistentUncharge) : Client :=
  {| started := 0; executor_ := newExecutor; resumeReady := false;
     wg := 0; Store := store |}.

(** Who hands a swap to the executor: the resume pass (line 212) or
    [Uncharge] (line 253). *)
Inductive origin : Type :=
| FromResume
| FromUncharge.

#[global] Instance origin_eq_dec : EqDecision origin.
Proof. solve_decision. Defined.

(** The calls the client makes on its collaborators, in the order made. *)
Inductive event : Type :=
| EvGetInfo
| EvGetUnchargeSwaps
| EvResumeUnchargeSwap (pend : PersistentUncharge)
| EvInitiateSwap (o : origin) (swap : unchargeSwap)
| EvExecutorRun
| EvGetUnchargeTerms
| EvGetSweepFee (witnessSize confTarget : Z)
| EvNewUnchargeSwap (req : UnchargeRequest)
| EvCreateUncharge (rec : PersistentUncharge).

(** Program points of a [Run] call (lines 124-192). *)
Inductive run_pc : Type :=
| R_Start (ctx : nat)
| R_GetInfo (ctx : nat)
| R_QueryStore (ctx mainCtx : nat)
| R_Spawn (ctx mainCtx : nat) (pendingSwaps : list PersistentUncharge)
| R_Executor (ctx mainCtx : nat)
| R_InExecutor (ctx mainCtx : nat)
| R_Shutdown (mainCtx : nat) (e : option error)
| R_WaitFinished (mainCtx : nat) (e : option error)
| R_WgWait (mainCtx : nat) (e : option error)
| R_Return (e : option error).

(** Program points of the goroutine started at line 153. *)
Inductive resume_pc : Type :=
| G_Resume (mainCtx : nat) (swaps : list PersistentUncharge)
| G_Close
| G_Done
| G_Exit.

(** Program points of an [Uncharge] call (lines 226-258). *)
Inductive uncharge_pc : Type :=
| U_Wait1 (ctx : nat) (req : UnchargeRequest)
| U_Wait2 (ctx : nat) (req : UnchargeRequest)
| U_New (ctx : nat) (req : UnchargeRequest)
| U_Initiate (ctx : nat) (swap : unchargeSwap)
| U_Return (h : option lntypes_Hash) (e : option error).

Inductive thread : Type :=
| TRun (pc : run_pc)
| TResume (pc : resume_pc)
| TUncharge (pc : uncharge_pc).

Record World : Type := {
  client : Client;
  ctxs : list context;
  trace : list event;
  threads : list thread;
}.

Definition set_client (f : Client → Client) (w : World) : World :=
  {| client := f (client w); ctxs := ctxs w; trace := trace w;
     threads := threads w |}.

Definition set_ctxs (f : list context → list context) (w : World) : World :=
  {| client := client w; ctxs := f (ctxs w); trace := trace w;
     threads := threads w |}.

Definition log (ev : event) (w : World) : World :=
  {| client := client w; ctxs := ctxs w; trace := trace w ++ [ev];
     threads := threads w |}.

Definition set_thread (i : nat) (t : thread) (w : World) : World :=
  {| client := client w; ctxs := ctxs w; trace := trace w;
     threads := <[i := t]> (threads w) |}.

Definition spawn (t : thread) (w : World) : World :=
  {| client := client w; ctxs := ctxs w; trace := trace w;
     threads := threads w ++ [t] |}.

Definition set_started (v : Z) (s : Client) : Client :=
  {| started := v; executor_ := executor_ s; resumeReady := resumeReady s;
     wg := wg s; Store := Store s |}.

Definition set_executor (f : executor → executor) (s : Client) : Client :=
  {| started := started s; executor_ := f (executor_ s);
     resumeReady := resumeReady s; wg := wg s; Store := Store s |}.

Definition close_resumeReady (s : Client) : Client :=
  {| started := started s; executor_ := executor_ s; resumeReady := true;
     wg := wg s; Store := Store s |}.

Definition wg_Add (delta : Z) (s : Client) : Client :=
  {| started := started s; executor_ := executor_ s;
     resumeReady := resumeReady s; wg := wg s + delta; Store := Store s |}.

Definition set_Store (f : list PersistentUncharge → list PersistentUncharge)
    (s : Client) : Client :=
  {| started := started s; executor_ := executor_ s;
     resumeReady := resumeReady s; wg := wg s; Store := f (Store s) |}.

Definition close_ready (x : executor) : executor :=
  {| ready := true; stopped := stopped x; units := units x;
     height := height x |}.

Definition stop (x : executor) : executor :=
  {| ready := ready x; stopped := true; units := units x;
     height := height x |}.

Definition set_units (f : list unchargeSwap → list unchargeSwap)
    (x : executor) : executor :=
  {| ready := ready x; stopped := stopped x; units := f (units x);
     height := height x |}.

Definition set_height (h : Z) (x : executor) : executor :=
  {| ready := ready x; stopped := stopped x; units := units x;
     height := h |}.

(** The world right after [NewClient]: no context, no call yet. *)
Definition initial (store : list PersistentUncharge) : World :=
  {| client := NewClient store; ctxs := []; trace := []; threads := [] |}.

(** [atomic.CompareAndSwapUint32(addr, old, new)]: whether it swapped, and
    the value left at [addr]. *)
Definition CompareAndSwapUint32 (v old new : Z) : bool * Z :=
  if decide (v = old) then (true, new) else (false, v).

(** ** A monad for calls that return [(value, error)] over the world *)

Definition M (A : Type) : Type := World → result A * World.

Definition fail {A} (e : error) : M A := λ w, (inr e, w).

#[global] Instance M_ret : MRet M := λ A a w, (inl a, w).

#[global] Instance M_bind : MBind M := λ A B k m w,
  match m w with
  | (inl a, w') => k a w'
  | (inr e, w') => (inr e, w')
  end.

(** A call on a collaborator: it is recorded, and answers [r]. *)
Definition call {A} (ev : event) (r : result A) : M A :=
  λ w, (r, log ev w).

(** An answer that is already there. *)
Definition lift {A} (r : result A) : M A := λ w, (r, w).

(** Modelled from the spec: the store's write of a new record (section 6,
    [save]). *)
Definition createUncharge (rec : PersistentUncharge) : M unit :=
  λ w, (inl tt, set_client (set_Store (λ s, s ++ [rec]))
                  (log (EvCreateUncharge rec) w)).

(** Modelled from the spec: [initiateSwap] of the executor (section 4.1):
    submission returns at once; the swap gets an execution unit unless the
    submission races with shutdown. *)
Definition initiateSwap (o : origin) (swap : unchargeSwap) (w : World) : World :=
  set_client
    (set_executor (λ x, if stopped x then x else set_units (λ u, u ++ [swap]) x))
    (log (EvInitiateSwap o swap) w).

(** What the swap server answers to one new swap: its terms, and the hash of
    the swap it agreed to (or the error of a later validation: expiry bounds,
    fees). *)
Record ServerReply : Type := {
  reply_terms : result UnchargeTerms;
  reply_swap : result lntypes_Hash;
}.

(** Modelled from the spec: [newUnchargeSwap] (section 4.2, [new]):
    validates the request against the server-advertised minimum and maximum
    amount and the other bounds, failing without mutating the store; on
    success it persists the initial record of the swap. *)
Definition newUnchargeSwap (server : ServerReply) (initiationHeight : Z)
    (req : UnchargeRequest) : M unchargeSwap :=
  terms ← call (EvNewUnchargeSwap req) (reply_terms server);
  if Amount req <? MinSwapAmount terms then fail ErrSwapAmountTooLow
  else if Amount req >? MaxSwapAmount terms then fail ErrSwapAmountTooHigh
  else
    h ← lift (reply_swap server);
    let rec := {| Hash := h; State := StateInitiated;
                  InitiationHeight := initiationHeight; Contract := req |} in
    createUncharge rec;;
    mret {| hash := h; initiationHeight := initiationHeight; request := req |}.

Section Collaborators.

(** [resumeUnchargeSwap] is not in [client.go]: it rebuilds a swap from a
    persisted record, or fails. *)
Variable resumeUnchargeSwap : PersistentUncharge → result unchargeSwap.

(** [UnchargeQuote] (lines 263-298).  [GetSweepFee] is the sweeper's fee
    estimate for a witness size and a confirmation target,
    [MaxSuccessWitnessSize] is [utils.QuoteHtlc.MaxSuccessWitnessSize], and
    [terms_reply] is what [s.Server.GetUnchargeTerms(ctx)] answers. *)
Definition UnchargeQuote (GetSweepFee : Z → Z → result btcutil_Amount)
    (MaxSuccessWitnessSize : Z) (terms_reply : result UnchargeTerms)
    (req : UnchargeQuoteRequest) : M UnchargeQuote_t :=
  terms ← call EvGetUnchargeTerms terms_reply;
  if QuoteAmount req <? MinSwapAmount terms then fail ErrSwapAmountTooLow
  else if QuoteAmount req >? MaxSwapAmount terms then fail ErrSwapAmountTooHigh
  else
    let swapFee :=
      CalcFee (QuoteAmount req) (SwapFeeBase terms) (SwapFeeRate terms) in
    minerFee ← call (EvGetSweepFee MaxSuccessWitnessSize (SweepConfTarget req))
                 (GetSweepFee MaxSuccessWitnessSize (SweepConfTarget req));
    mret {| SwapFee := swapFee; MinerFee := minerFee;
           PrepayAmount := PrepayAmt terms |}.

(** One iteration of the loop of [resumeSwaps] (lines 198-213). *)
Definition resumeSwap (pend : PersistentUncharge) (w : World) : World :=
  if decide (SwapState_Type (State pend) ≠ StateTypePending) then w
  else
    match resumeUnchargeSwap pend with
    | inr _ => log (EvResumeUnchargeSwap pend) w
    | inl swap =>
        initiateSwap FromResume swap (log (EvResumeUnchargeSwap pend) w)
    end.

(** [resumeSwaps] (lines 195-214). *)
Fixpoint resumeSwaps (swaps : list PersistentUncharge) (w : World) : World :=
  match swaps with
  | [] => w
  | pend :: rest => resumeSwaps rest (resumeSwap pend w)
  end.

(** ** The threads of the client *)

(** Lines 239-250 of [Uncharge], run by thread [i] when the server answers
    [server]: the swap is built at the executor's height; an error is
    returned with a nil hash. *)
Definition Uncharge_new (server : ServerReply) (i c : nat)
    (req : UnchargeRequest) (w : World) : World :=
  match newUnchargeSwap server (height (executor_ (client w))) req w with
  | (inl swap, w') => set_thread i (TUncharge (U_Initiate c swap)) w'
  | (inr e, w') => set_thread i (TUncharge (U_Return None (Some e))) w'
  end.

(** [err == context.Canceled] is the happy flow (lines 168-171). *)
Definition happy_flow (e : option error) : option error :=
  if decide (e = Some context_Canceled) then None else e.

(** Modelled from the spec: what [executor.run] returns (section 4.1): it
    returns when its cancellation signal fires, with the error of its
    context, or when a non-recoverable internal error occurs, with that
    error. *)
Inductive executor_run_returns (mainCtxErr : option error) : error → Prop :=
| run_cancelled e :
    mainCtxErr = Some e → executor_run_returns mainCtxErr e
| run_fatal msg :
    executor_run_returns mainCtxErr (collaborator_error msg).

(** Modelled from the spec: [waitFinished] (section 4.1) blocks until every
    execution unit has exited. *)
Definition waitFinished_returns (x : executor) : Prop := units x = [].

(** A step of thread [i].  What a collaborator answers (an error of the
    node backend or of the store, the server's reply, the pick of a
    [select]) is chosen by the rule.  Inside [executor.run] the executor
    starts listening, which closes [ready], and returns as
    [executor_run_returns] says. *)
Inductive tstep (i : nat) (w : World) : World → Prop :=
(* Run, line 127 *)
| Run_started c v :
    threads w !! i = Some (TRun (R_Start c)) →
    CompareAndSwapUint32 (started (client w)) 0 1 = (true, v) →
    tstep i w (set_thread i (TRun (R_GetInfo c))
                 (set_client (set_started v) w))
| Run_started_twice c v :
    threads w !! i = Some (TRun (R_Start c)) →
    CompareAndSwapUint32 (started (client w)) 0 1 = (false, v) →
    tstep i w (set_thread i (TRun (R_Return (Some errStartedOnce))) w)
(* Run, lines 132-142 *)
| Run_GetInfo_error c e :
    threads w !! i = Some (TRun (R_GetInfo c)) →
    tstep i w (set_thread i
                 (TRun (R_Return (Some (fmt_Errorf "GetInfo error: %v" e))))
                 (log EvGetInfo w))
| Run_GetInfo c :
    threads w !! i = Some (TRun (R_GetInfo c)) →
    tstep i w (set_thread i (TRun (R_QueryStore c (WithCancel c (ctxs w)).1))
                 (set_ctxs (λ _, (WithCancel c (ctxs w)).2) (log EvGetInfo w)))
(* Run, lines 146-149; the deferred mainCancel runs on the early return *)
| Run_getUnchargeSwaps_error c m e :
    threads w !! i = Some (TRun (R_QueryStore c m)) →
    tstep i w (set_thread i (TRun (R_Return (Some e)))
                 (set_ctxs (cancel m context_Canceled)
                    (log EvGetUnchargeSwaps w)))
| Run_getUnchargeSwaps c m :
    threads w !! i = Some (TRun (R_QueryStore c m)) →
    tstep i w (set_thread i (TRun (R_Spawn c m (Store (client w))))
                 (log EvGetUnchargeSwaps w))
(* Run, lines 152-163 *)
| Run_go c m pendingSwaps :
    threads w !! i = Some (TRun (R_Spawn c m pendingSwaps)) →
    tstep i w (spawn (TResume (G_Resume m pendingSwaps))
                 (set_thread i (TRun (R_Executor c m))
                    (set_client (wg_Add 1) w)))
(* Run, line 166: the executor's run, modelled from the spec *)
| Run_executor_run c m :
    threads w !! i = Some (TRun (R_Executor c m)) →
    tstep i w (set_thread i (TRun (R_InExecutor c m)) (log EvExecutorRun w))
| Executor_listening c m :
    threads w !! i = Some (TRun (R_InExecutor c m)) →
    ready (executor_ (client w)) = false →
    tstep i w (set_client (set_executor close_ready) w)
| Executor_returns c m e :
    threads w !! i = Some (TRun (R_InExecutor c m)) →
    executor_run_returns (ctx_Err (ctxs w) m) e →
    tstep i w (set_thread i (TRun (R_Shutdown m (Some e)))
                 (set_client (set_executor stop) w))
(* Run, lines 168-180 *)
| Run_shutdown m e :
    threads w !! i = Some (TRun (R_Shutdown m e)) →
    tstep i w (set_thread i (TRun (R_WaitFinished m (happy_flow e)))
                 (set_ctxs (cancel m context_Canceled) w))
(* Run, line 184 *)
| Run_waitFinished m e :
    threads w !! i = Some (TRun (R_WaitFinished m e)) →
    waitFinished_returns (executor_ (client w)) →
    tstep i w (set_thread i (TRun (R_WgWait m e)) w)
(* Run, lines 187-191, then the deferred mainCancel *)
| Run_wgWait m e :
    threads w !! i = Some (TRun (R_WgWait m e)) →
    wg (client w) = 0 →
    tstep i w (set_thread i (TRun (R_Return e))
                 (set_ctxs (cancel m context_Canceled) w))
(* the goroutine of lines 153-163 *)
| Resume_next m pend rest :
    threads w !! i = Some (TResume (G_Resume m (pend :: rest))) →
    tstep i w (set_thread i (TResume (G_Resume m rest)) (resumeSwap pend w))
| Resume_end m :
    threads w !! i = Some (TResume (G_Resume m [])) →
    tstep i w (set_thread i (TResume G_Close) w)
| Resume_close :
    threads w !! i = Some (TResume G_Close) →
    tstep i w (set_thread i (TResume G_Done) (set_client close_resumeReady w))
| Resume_wgDone :
    threads w !! i = Some (TResume G_Done) →
    tstep i w (set_thread i (TResume G_Exit) (set_client (wg_Add (-1)) w))
(* Uncharge, line 234: the two selects of waitForInitialized *)
| Uncharge_ready c req pick :
    threads w !! i = Some (TUncharge (U_Wait1 c req)) →
    select_gate (ready (executor_ (client w))) (ctx_Err (ctxs w) c) pick
      = SelGate →
    tstep i w (set_thread i (TUncharge (U_Wait2 c req)) w)
| Uncharge_ready_done c req pick e :
    threads w !! i = Some (TUncharge (U_Wait1 c req)) →
    select_gate (ready (executor_ (client w))) (ctx_Err (ctxs w) c) pick
      = SelDone e →
    tstep i w (set_thread i (TUncharge (U_Return None (Some e))) w)
| Uncharge_resumeReady c req pick :
    threads w !! i = Some (TUncharge (U_Wait2 c req)) →
    select_gate (resumeReady (client w)) (ctx_Err (ctxs w) c) pick
      = SelGate →
    tstep i w (set_thread i (TUncharge (U_New c req)) w)
| Uncharge_resumeReady_done c req pick e :
    threads w !! i = Some (TUncharge (U_Wait2 c req)) →
    select_gate (resumeReady (client w)) (ctx_Err (ctxs w) c) pick
      = SelDone e →
    tstep i w (set_thread i (TUncharge (U_Return None (Some e))) w)
(* Uncharge, lines 239-250 *)
| Uncharge_newUnchargeSwap c req server :
    threads w !! i = Some (TUncharge (U_New c req)) →
    tstep i w (Uncharge_new server i c req w)
(* Uncharge, lines 253-257 *)
| Uncharge_initiateSwap c swap :
    threads w !! i = Some (TUncharge (U_Initiate c swap)) →
    tstep i w (set_thread i (TUncharge (U_Return (Some (hash swap)) None))
                 (initiateSwap FromUncharge swap w)).

(** A context a caller owns: made by the caller, not derived by [Run]. *)
Definition root (w : World) (c : nat) : Prop :=
  ∃ e, ctxs w !! c = Some {| parent := None; err := e |}.

(** What happens around the client: callers make contexts, cancel them or
    let them expire, and call [Run] and [Uncharge]; running swaps exit;
    blocks arrive. *)
Inductive estep (w : World) : World → Prop :=
| Env_context :
    estep w (set_ctxs (λ l, l ++ [{| parent := None; err := None |}]) w)
| Env_cancel c e :
    ctxs w !! c = Some {| parent := None; err := None |} →
    e = context_Canceled ∨ e = context_DeadlineExceeded →
    estep w (set_ctxs (cancel c e) w)
| Env_Run c :
    root w c →
    estep w (spawn (TRun (R_Start c)) w)
| Env_Uncharge c req :
    root w c →
    estep w (spawn (TUncharge (U_Wait1 c req)) w)
| Env_unit_exit u1 swap u2 :
    units (executor_ (client w)) = u1 ++ swap :: u2 →
    estep w (set_client (set_executor (set_units (λ _, u1 ++ u2))) w)
| Env_block h :
    estep w (set_client (set_executor (set_height h)) w).

Definition step (w w' : World) : Prop :=
  (∃ i, tstep i w w') ∨ estep w w'.

(** The worlds a client can be in. *)
Definition reachable (w : World) : Prop :=
  ∃ store, rtc step (initial store) w.

(** ** Reading the trace *)

(** The swaps handed to the executor, with who handed them. *)
Definition submissions (tr : list event) : list (origin * unchargeSwap) :=
  omap (λ ev, match ev with
              | EvInitiateSwap o swap => Some (o, swap)
              | _ => None
              end) tr.

(** The records [resumeUnchargeSwap] was called on. *)
Definition resume_calls (tr : list event) : list PersistentUncharge :=
  omap (λ ev, match ev with
              | EvResumeUnchargeSwap pend => Some pend
              | _ => None
              end) tr.

(** The records written to the store. *)
Definition store_writes (tr : list event) : list PersistentUncharge :=
  omap (λ ev, match ev with
              | EvCreateUncharge rec => Some rec
              | _ => None
              end) tr.

Definition pending (pend : PersistentUncharge) : Prop :=
  SwapState_Type (State pend) = StateTypePending.

(** The swap a record resumes to, if it does. *)
Definition try_resume (pend : PersistentUncharge) : option unchargeSwap :=
  match resumeUnchargeSwap pend with
  | inl swap => Some swap
  | inr _ => None
  end.

(** ** Where a thread is *)

(** A [Run] call past its first statement (line 127). *)
Definition begun (t : thread) : bool :=
  match t with
  | TRun (R_Start _) => false
  | TRun _ => true
  | _ => false
  end.

(** A [Run] call that won the flag and has not returned. *)
Definition active (t : thread) : bool :=
  match t with
  | TRun (R_Start _ | R_Return _) => false
  | TRun _ => true
  | _ => false
  end.

(** A [Run] call that won the flag and has yet to start the resume
    goroutine. *)
Definition prespawn (t : thread) : bool :=
  match t with
  | TRun (R_GetInfo _ | R_QueryStore _ _ | R_Spawn _ _ _) => true
  | _ => false
  end.

(** The resume goroutine, before it closed [resumeReady]. *)
Definition resuming (t : thread) : bool :=
  match t with
  | TResume (G_Resume _ _ | G_Close) => true
  | _ => false
  end.

(** The resume goroutine, before its [wg.Done()]. *)
Definition alive (t : thread) : bool :=
  match t with
  | TResume (G_Resume _ _ | G_Close | G_Done) => true
  | _ => false
  end.

Definition is_goroutine (t : thread) : bool :=
  match t with
  | TResume _ => true
  | _ => false
  end.

(** The resume goroutine, after it closed [resumeReady]. *)
Definition closed_gate (t : thread) : bool :=
  match t with
  | TResume (G_Done | G_Exit) => true
  | _ => false
  end.

(** An [Uncharge] call past the first, respectively the second, select of
    [waitForInitialized] by its gate. *)
Definition past_ready (t : thread) : bool :=
  match t with
  | TUncharge (U_Wait2 _ _ | U_New _ _ | U_Initiate _ _ | U_Return (Some _) _) =>
      true
  | _ => false
  end.

Definition past_resumeReady (t : thread) : bool :=
  match t with
  | TUncharge (U_New _ _ | U_Initiate _ _ | U_Return (Some _) _) => true
  | _ => false
  end.

(** A [Run] call after the executor returned, respectively after
    [waitFinished] returned. *)
Definition draining (t : thread) : bool :=
  match t with
  | TRun (R_Shutdown _ _ | R_WaitFinished _ _ | R_WgWait _ _) => true
  | _ => false
  end.

Definition drained (t : thread) : bool :=
  match t with
  | TRun (R_WgWait _ _) => true
  | _ => false
  end.

(** The contexts a [Run] call holds: the caller's is a root, and until the
    executor returns the main context is derived from it and done exactly
    when it is. *)
Definition ctx_ok (cs : list context) (t : thread) : Prop :=
  match t with
  | TRun (R_Start c | R_GetInfo c) =>
      ∃ e, cs !! c = Some {| parent := None; err := e |}
  | TRun (R_QueryStore c m | R_Spawn c m _ | R_Executor c m
         | R_InExecutor c m) =>
      ∃ e, cs !! c = Some {| parent := None; err := e |}
           ∧ cs !! m = Some {| parent := Some c; err := e |}
  | _ => True
  end.

Definition from (o : origin) (s : origin * unchargeSwap) : Prop := s.1 = o.

(** Every swap the resume pass handed over comes before every swap
    [Uncharge] handed over. *)
Definition resumed_first (tr : list event) : Prop :=
  ∃ tr1 tr2, tr = tr1 ++ tr2
             ∧ Forall (from FromResume) (submissions tr1)
             ∧ Forall (from FromUncharge) (submissions tr2).

(** ** The invariant of the client *)

Record Inv (w : World) : Prop := {
  inv_started : started (client w) = 0 ∨ started (client w) = 1;
  inv_fresh :
    started (client w) = 0 →
    resumeReady (client w) = false ∧ wg (client w) = 0
    ∧ ∀ j t, threads w !! j = Some t →
             begun t = false ∧ is_goroutine t = false;
  inv_active :
    ∀ j k tj tk,
      threads w !! j = Some tj → threads w !! k = Some tk →
      active tj = true → active tk = true → j = k;
  inv_pass :
    ∀ j k tj tk,
      threads w !! j = Some tj → threads w !! k = Some tk →
      prespawn tj || alive tj = true → prespawn tk || alive tk = true →
      j = k;
  inv_resumeReady :
    resumeReady (client w) = true →
    ∀ j t, threads w !! j = Some t →
           prespawn t = false ∧ resuming t = false;
  inv_gates :
    ∀ j t, threads w !! j = Some t →
           (closed_gate t = true → resumeReady (client w) = true)
           ∧ (past_ready t = true → ready (executor_ (client w)) = true)
           ∧ (past_resumeReady t = true → resumeReady (client w) = true);
  inv_wg :
    ∀ j t, threads w !! j = Some t →
           (alive t = true → wg (client w) = 1)
           ∧ (prespawn t = true → wg (client w) = 0);
  inv_fin :
    ∀ j t, threads w !! j = Some t →
           (draining t = true → stopped (executor_ (client w)) = true)
           ∧ (drained t = true → units (executor_ (client w)) = []);
  inv_ctx : ∀ j t, threads w !! j = Some t → ctx_ok (ctxs w) t;
  inv_trace :
    if resumeReady (client w) then resumed_first (trace w)
    else Forall (from FromResume) (submissions (trace w));
}.

(** A marker for the proofs: the invariant part [_H] was used at thread
    [_j]. *)
Definition learned_from {A} (_H : A) (_j : nat) : Prop := True.

(** A [Run] call whose executor returned [context.Canceled]: from line 168
    to its return. *)
Definition winding_down (t : thread) : bool :=
  match t with
  | TRun (R_Shutdown _ (Some context_Canceled))
  | TRun (R_WaitFinished _ None | R_WgWait _ None | R_Return None) => true
  | _ => false
  end.

(** ** A run of the client, for the examples

    A store with three records: one Pending that does not resume, one
    Terminal, one Pending that resumes.  A caller starts [Run] with context
    0 and calls [Uncharge] with context 1; [Run] derives its main context,
    2, and starts the resume goroutine, thread 2. *)

Definition demo_request : UnchargeRequest :=
  {| Amount := 50000; DestAddr := "bc1qdest"; UnchargeChannel := None |}.

Definition demo_record (h : lntypes_Hash) (s : SwapState) : PersistentUncharge :=
  {| Hash := h; State := s; InitiationHeight := 600;
     Contract := demo_request |}.

Definition demo_store : list PersistentUncharge :=
  [demo_record 1 StateInitiated; demo_record 2 StateSuccess;
   demo_record 3 StateHtlcBroadcast].

Definition demo_resume (pend : PersistentUncharge) : result unchargeSwap :=
  if decide (Hash pend = 1) then inr (collaborator_error "malformed record")
  else inl {| hash := Hash pend; initiationHeight := InitiationHeight pend;
              request := Contract pend |}.

Definition demo_swap3 : unchargeSwap :=
  {| hash := 3; initiationHeight := 600; request := demo_request |}.

Definition demo_swap7 : unchargeSwap :=
  {| hash := 7; initiationHeight := 650; request := demo_request |}.

Definition demo_record7 : PersistentUncharge :=
  {| Hash := 7; State := StateInitiated; InitiationHeight := 650;
     Contract := demo_request |}.

(** The terms of the spec's fee example. *)
Definition demo_terms : UnchargeTerms :=
  {| MinSwapAmount := 10000; MaxSwapAmount := 1000000; SwapFeeBase := 100;
     SwapFeeRate := 1 # 100; PrepayAmt := 1000; SwapPaymentDest := [] |}.


Definition demo_server : ServerReply :=
  {| reply_terms := inl demo_terms; reply_swap := inl 7 |}.

Definition demo_sweeper (witnessSize confTarget : Z) : result btcutil_Amount :=
  inl 42.

Definition demo_executor (units : list unchargeSwap) : executor :=
  {| ready := true; stopped := false; units := units; height := 650 |}.

(** [Run] is in the executor, which is listening; the goroutine has not
    begun its pass; the caller of [Uncharge] has cancelled context 1 and
    [Uncharge] is at its first select. *)
Definition demo_cancelled : World :=
  {| client := {| started := 1; executor_ := demo_executor [];
                  resumeReady := false; wg := 1; Store := demo_store |};
     ctxs := [ {| parent := None; err := None |};
               {| parent := None; err := Some context_Canceled |};
               {| parent := Some 0%nat; err := None |} ];
     trace := [EvGetInfo; EvGetUnchargeSwaps; EvExecutorRun];
     threads := [ TRun (R_InExecutor 0 2);
                  TUncharge (U_Wait1 1 demo_request);
                  TResume (G_Resume 2 demo_store) ] |}.

(** Later: the goroutine did its pass and closed [resumeReady], and
    [Uncharge] went on to build, persist and submit swap 7. *)
Definition demo_submitted : World :=
  {| client := {| started := 1;
                  executor_ := demo_executor [demo_swap3; demo_swap7];
                  resumeReady := true; wg := 1;
                  Store := demo_store ++ [demo_record7] |};
     ctxs := [ {| parent := None; err := None |};
               {| parent := None; err := Some context_Canceled |};
               {| parent := Some 0%nat; err := None |} ];
     trace := [ EvGetInfo; EvGetUnchargeSwaps; EvExecutorRun;
                EvResumeUnchargeSwap (demo_record 1 StateInitiated);
                EvResumeUnchargeSwap (demo_record 3 StateHtlcBroadcast);
                EvInitiateSwap FromResume demo_swap3;
                EvNewUnchargeSwap demo_request;
                EvCreateUncharge demo_record7;
                EvInitiateSwap FromUncharge demo_swap7 ];
     threads := [ TRun (R_InExecutor 0 2);
                  TUncharge (U_Return (Some 7) None);
                  TResume G_Done ] |}.

(** Later: the caller of [Run] cancelled context 0, and called [Run] a
    second time (thread 3). *)
Definition demo_Run_cancelled : World :=
  {| client := client demo_submitted;
     ctxs := [ {| parent := None; err := Some context_Canceled |};
               {| parent := None; err := Some context_Canceled |};
               {| parent := Some 0%nat; err := Some context_Canceled |} ];
     trace := trace demo_submitted;
     threads := threads demo_submitted ++ [TRun (R_Start 0)] |}.

(** The executor returned on the cancellation. *)
Definition demo_executor_returned : World :=
  set_thread 0 (TRun (R_Shutdown 2 (Some context_Canceled)))
    (set_client (set_executor stop) demo_Run_cancelled).

(** Its units and the goroutine have exited; [Run] is at [wg.Wait()]. *)
Definition demo_drained : World :=
  {| client := {| started := 1;
                  executor_ := {| ready := true; stopped := true; units := [];
                                  height := 650 |};
                  resumeReady := true; wg := 0;
                  Store := demo_store ++ [demo_record7] |};
     ctxs := ctxs demo_Run_cancelled;
     trace := trace demo_submitted;
     threads := [ TRun (R_WgWait 2 None);
                  TUncharge (U_Return (Some 7) None);
                  TResume G_Exit; TRun (R_Start 0) ] |}.




(** An [Uncharge] call at its first select, no gate fired, its context
    cancelled. *)
Definition demo_waiting : World :=
  {| client := NewClient [];
     ctxs := [ {| parent := None; err := Some context_Canceled |} ];
     trace := [];
     threads := [TUncharge (U_Wait1 0 demo_request)] |}.

(** ** The rest of the client's surface *)

(** [UnchargeTerms] (lines 301-305): the server's answer, passed through. *)
Definition Client_UnchargeTerms (terms_reply : result UnchargeTerms)
    : M UnchargeTerms :=
  call EvGetUnchargeTerms terms_reply.

(** What [NewClient] (lines 66-113) holds open: the swap store and the
    connection to the swap server. *)
Record Resources : Type := {
  store_open : bool;
  server_open : bool;
}.

(** [newBoltSwapClientStore(dbDir)]: the store is opened, or it fails. *)
Definition open_store (store_reply : result (list PersistentUncharge))
    (r : Resources) : Resources :=
  match store_reply with
  | inl _ => {| store_open := true; server_open := server_open r |}
  | inr _ => r
  end.

(** [newSwapServerClient(serverAddress, insecure)]: the connection is made,
    or it fails. *)
Definition dial_server (server_error : option error) (r : Resources)
    : Resources :=
  match server_error with
  | None => {| store_open := store_open r; server_open := true |}
  | Some _ => r
  end.

(** The [cleanup] closure of lines 108-110: [swapServerClient.Close()]. *)
Definition cleanup (r : Resources) : Resources :=
  {| store_open := store_open r; server_open := false |}.

(** [NewClient] (lines 66-113) with its two fallible calls: the client and
    its cleanup, or the first error; and the resources left open. *)
Definition NewClient_call (store_reply : result (list PersistentUncharge))
    (server_error : option error) (r : Resources)
    : result (Client * (Resources → Resources)) * Resources :=
  match store_reply with
  | inr e => (inr e, r)
  | inl store =>
      let r1 := open_store store_reply r in
      match server_error with
      | Some e => (inr e, r1)
      | None => (inl (NewClient store, cleanup), dial_server server_error r1)
      end
  end.

(** ** The log writer of [log.go] *)

(** [os.Stdout.Write(p)]: standard output takes the first [accepted] bytes
    of [p] (all of them unless the write is short or fails). *)
Definition Stdout_Write (accepted : nat) (p : list Byte.byte)
    (stdout : list Byte.byte) : list Byte.byte :=
  stdout ++ take accepted p.

(** [logWriter.Write] (lines 21-24): writes to standard output, drops what
    that write returned, and returns [len(p), nil]. *)
Definition logWriter_Write (accepted : nat) (p : list Byte.byte)
    (stdout : list Byte.byte) : (nat * option error) * list Byte.byte :=
  ((length p, None), Stdout_Write accepted p stdout).

(** A sequence of writes, each with what standard output accepted of it:
    what each [Write] returned (byte count and error), and standard output
    after them. *)
Fixpoint logWriter_Writes (ps : list (nat * list Byte.byte))
    (stdout : list Byte.byte) : list (nat * option error) * list Byte.byte :=
  match ps with
  | [] => ([], stdout)
  | (accepted, p) :: rest =>
      let '(r, stdout1) := logWriter_Write accepted p stdout in
      let '(rs, stdout2) := logWriter_Writes rest stdout1 in
      (r :: rs, stdout2)
  end.

(** ** The resume pass against the records found at startup *)

(** What the calls to [resumeUnchargeSwap] made so far must be, seen from a
    thread, when [store] held the records at startup: none before the
    goroutine starts; the Pending records of the part of the snapshot
    already gone through while it loops; those of the whole snapshot when
    it is through. *)
Definition pass_ok (store calls : list PersistentUncharge) (t : thread) : Prop :=
  match t with
  | TRun (R_GetInfo _ | R_QueryStore _ _) => calls = []
  | TRun (R_Spawn _ _ pendingSwaps) => pendingSwaps = store ∧ calls = []
  | TResume (G_Resume _ swaps) =>
      ∃ gone, store = gone ++ swaps ∧ calls = filter pending gone
  | TResume G_Close => calls = filter pending store
  | _ => True
  end.

Record InvPass (store : list PersistentUncharge) (w : World) : Prop := {
  ip_store : resumeReady (client w) = false → Store (client w) = store;
  ip_zero : started (client w) = 0 → resume_calls (trace w) = [];
  ip_thread :
    ∀ j t, threads w !! j = Some t →
           pass_ok store (resume_calls (trace w)) t;
  ip_closed :
    resumeReady (client w) = true →
    resume_calls (trace w) = filter pending store;
  ip_prefix : resume_calls (trace w) `prefix_of` filter pending store;
}.

(** ** More that holds of every world of the client *)

(** The thread that owns the resume pass: the [Run] call that won the
    flag, until it starts the goroutine, then the goroutine. *)
Definition pass_owner (t : thread) : bool := prespawn t || is_goroutine t.

Definition exited (t : thread) : bool :=
  match t with
  | TResume G_Exit => true
  | _ => false
  end.

(** The calls of the startup sequence of [Run]. *)
Definition startup_calls (tr : list event) : list event :=
  omap (λ ev, match ev with
              | EvGetInfo | EvGetUnchargeSwaps | EvExecutorRun => Some ev
              | _ => None
              end) tr.

(** The startup calls a [Run] call has made when it is at [t]. *)
Definition startup_done (t : thread) : list event :=
  match t with
  | TRun (R_QueryStore _ _) => [EvGetInfo]
  | TRun (R_Spawn _ _ _ | R_Executor _ _) => [EvGetInfo; EvGetUnchargeSwaps]
  | TRun (R_InExecutor _ _ | R_Shutdown _ _ | R_WaitFinished _ _
         | R_WgWait _ _) =>
      [EvGetInfo; EvGetUnchargeSwaps; EvExecutorRun]
  | _ => []
  end.

(** What an [Uncharge] call that has returned may have returned: a nil
    hash with an error, or the hash of a swap it handed to the executor
    with a nil error. *)
Definition result_ok (tr : list event) (t : thread) : Prop :=
  match t with
  | TUncharge (U_Return None (Some _)) => True
  | TUncharge (U_Return (Some h) None) =>
      ∃ swap, h = hash swap ∧ EvInitiateSwap FromUncharge swap ∈ tr
  | TUncharge (U_Return _ _) => False
  | _ => True
  end.

Record InvOnce (w : World) : Prop := {
  io_owner :
    ∀ j k tj tk,
      threads w !! j = Some tj → threads w !! k = Some tk →
      pass_owner tj = true → pass_owner tk = true → j = k;
  io_wg : wg (client w) = 0 ∨ wg (client w) = 1;
  io_exited :
    ∀ j t, threads w !! j = Some t → exited t = true → wg (client w) = 0;
}.

Record InvCalls (w : World) : Prop := {
  ic_zero :
    started (client w) = 0 →
    submissions (trace w) = [] ∧ startup_calls (trace w) = [];
  ic_quiet :
    ∀ j t, threads w !! j = Some t → prespawn t = true →
           submissions (trace w) = [];
  ic_result : ∀ j t, threads w !! j = Some t → result_ok (trace w) t;
  ic_startup :
    ∀ j t, threads w !! j = Some t → active t = true →
           startup_calls (trace w) = startup_done t;
  ic_prefix :
    startup_calls (trace w)
    `prefix_of` [EvGetInfo; EvGetUnchargeSwaps; EvExecutorRun];
  ic_queried :
    ∀ j t, threads w !! j = Some t → is_goroutine t = true →
           EvGetInfo ∈ trace w ∧ EvGetUnchargeSwaps ∈ trace w;
  ic_closed :
    resumeReady (client w) = true →
    EvGetInfo ∈ trace w ∧ EvGetUnchargeSwaps ∈ trace w;
}.

(** A [Run] call on its way out with result [r]: the executor has returned
    an error that lines 168-171 turn into [r], or [Run] is past those
    lines, or has returned. *)
Definition returning (r : option error) (t : thread) : Prop :=
  match t with
  | TRun (R_Shutdown _ e) => happy_flow e = r
  | TRun (R_WaitFinished _ e | R_WgWait _ e | R_Return e) => e = r
  | _ => False
  end.

(** A client whose [Run] failed before it started the resume goroutine:
    the flag is set, [resumeReady] is open, nothing has been handed to the executor, and no
    thread is one that could close the gate or is past it. *)
Definition dead (w : World) : Prop :=
  started (client w) = 1
  ∧ resumeReady (client w) = false
  ∧ submissions (trace w) = []
  ∧ ∀ j t, threads w !! j = Some t →
           prespawn t = false ∧ is_goroutine t = false
           ∧ past_resumeReady t = false.

(** The main context of a [Run] call that is shutting down: it exists, and
    from [waitFinished] on it is done. *)
Definition main_ok (cs : list context) (t : thread) : Prop :=
  match t with
  | TRun (R_Shutdown m _) => is_Some (cs !! m)
  | TRun (R_WaitFinished m _ | R_WgWait m _) => is_Some (ctx_Err cs m)
  | _ => True
  end.

(** [Run] has won the flag and is about to call [GetInfo]; an [Uncharge]
    call waits at its first select. *)
Definition demo_starting : World :=
  {| client := {| started := 1; executor_ := newExecutor;
                  resumeReady := false; wg := 0; Store := demo_store |};
     ctxs := [ {| parent := None; err := None |};
               {| parent := None; err := None |} ];
     trace := [];
     threads := [ TRun (R_GetInfo 0);
                  TUncharge (U_Wait1 1 demo_request) ] |}.

(** [GetInfo] failed and [Run] returned. *)
Definition demo_failed : World :=
  set_thread 0
    (TRun (R_Return
             (Some (fmt_Errorf "GetInfo error: %v"
                      (collaborator_error "connection refused")))))
    (log EvGetInfo demo_starting).

(** The caller cancelled its context while [Run], which has won the flag,
    is about to call [GetInfo]. *)
Definition demo_GetInfo_cancelled : World :=
  {| client := {| started := 1; executor_ := newExecutor;
                  resumeReady := false; wg := 0; Store := demo_store |};
     ctxs := [ {| parent := None; err := Some context_Canceled |} ];
     trace := [];
     threads := [ TRun (R_GetInfo 0) ] |}.

(** [GetInfo] failed on the cancelled context and [Run] returned its
    error. *)
Definition demo_GetInfo_failed : World :=
  set_thread 0
    (TRun (R_Return
             (Some (fmt_Errorf "GetInfo error: %v"
                      (collaborator_error
                         "rpc error: code = Canceled desc = context canceled")))))
    (log EvGetInfo demo_GetInfo_cancelled).

(** * Properties *)

(** ** [resumeSwaps] *)

Lemma submissions_app tr1 tr2 :
  submissions (tr1 ++ tr2) = submissions tr1 ++ submissions tr2.
Proof. apply omap_app. Qed.

Lemma resume_calls_app tr1 tr2 :
  resume_calls (tr1 ++ tr2) = resume_calls tr1 ++ resume_calls tr2.
Proof. apply omap_app. Qed.

Lemma resumeSwap_terminal pend w :
  ¬ pending pend → resumeSwap pend w = w.
Proof.
  intros Hp. unfold resumeSwap, pending in *.
  destruct (decide _) as [|Hn]; [done | ]. by destruct Hn.
Qed.

Lemma resumeSwap_submissions pend w :
  pending pend →
  submissions (trace (resumeSwap pend w))
  = submissions (trace w)
    ++ match try_resume pend with
       | Some swap => [(FromResume, swap)]
       | None => []
       end.
Proof.
  intros Hp. unfold resumeSwap, try_resume, pending in *.
  destruct (decide _) as [Hn|_]; [done | ].
  destruct (resumeUnchargeSwap pend) as [swap|e]; simpl;
    rewrite !submissions_app; simpl; by rewrite ?app_nil_r.
Qed.

Lemma resumeSwap_resume_calls pend w :
  pending pend →
  resume_calls (trace (resumeSwap pend w)) = resume_calls (trace w) ++ [pend].
Proof.
  intros Hp. unfold resumeSwap, pending in *.
  destruct (decide _) as [Hn|_]; [done | ].
  destruct (resumeUnchargeSwap pend) as [swap|e]; simpl;
    rewrite !resume_calls_app; simpl; by rewrite ?app_nil_r.
Qed.

Lemma resumeSwaps_submissions swaps w :
  submissions (trace (resumeSwaps swaps w))
  = submissions (trace w)
    ++ ((λ swap, (FromResume, swap)) <$> omap try_resume (filter pending swaps)).
Proof.
  revert w. induction swaps as [|pend rest IH]; intros w; simpl.
  - by rewrite app_nil_r.
  - rewrite IH. destruct (decide (pending pend)) as [Hp|Hp].
    + rewrite filter_cons_True by done. simpl.
      rewrite resumeSwap_submissions by done.
      destruct (try_resume pend); simpl; by rewrite <- app_assoc.
    + rewrite filter_cons_False by done. by rewrite resumeSwap_terminal.
Qed.

Lemma resumeSwaps_resume_calls swaps w :
  resume_calls (trace (resumeSwaps swaps w))
  = resume_calls (trace w) ++ filter pending swaps.
Proof.
  revert w. induction swaps as [|pend rest IH]; intros w; simpl.
  - by rewrite app_nil_r.
  - rewrite IH. destruct (decide (pending pend)) as [Hp|Hp].
    + rewrite filter_cons_True by done.
      rewrite resumeSwap_resume_calls by done. by rewrite <- app_assoc.
    + rewrite filter_cons_False by done. by rewrite resumeSwap_terminal.
Qed.

(** C2 (amended).  For every list of records loaded from the store, the
    resume pass hands to the executor exactly the swaps of those records
    that are Pending and that [resumeUnchargeSwap] rebuilds without error,
    in the order of the list; a record whose state is Terminal is skipped:
    its iteration changes nothing, so it is never resubmitted. *)
Theorem C2_resume_pass_submits_resumable_pending :
  (∀ swaps w,
     submissions (trace (resumeSwaps swaps w))
     = submissions (trace w)
       ++ ((λ swap, (FromResume, swap))
             <$> omap try_resume (filter pending swaps)))
  ∧ (∀ pend w,
       SwapState_Type (State pend) = StateTypeTerminal →
       resumeSwap pend w = w).
Proof.
  split.
  - apply resumeSwaps_submissions.
  - intros pend w Ht. apply resumeSwap_terminal. unfold pending.
    rewrite Ht. discriminate.
Qed.

(** ** [UnchargeQuote] *)

Section Quote.

Variable GetSweepFee : Z → Z → result btcutil_Amount.
Variable MaxSuccessWitnessSize : Z.

Lemma UnchargeQuote_client terms_reply req w :
  client (UnchargeQuote GetSweepFee MaxSuccessWitnessSize terms_reply req w).2 = client w.
Proof.
  unfold UnchargeQuote, mbind, M_bind, call, fail, mret, M_ret.
  destruct terms_reply as [terms|e]; simpl; [ | done].
  destruct (QuoteAmount req <? MinSwapAmount terms); [done | ].
  destruct (QuoteAmount req >? MaxSwapAmount terms); [done | ].
  by destruct (GetSweepFee _ _).
Qed.

Lemma UnchargeQuote_store_writes terms_reply req w :
  store_writes (trace (UnchargeQuote GetSweepFee MaxSuccessWitnessSize terms_reply req w).2)
  = store_writes (trace w).
Proof.
  unfold UnchargeQuote, mbind, M_bind, call, fail, mret, M_ret, store_writes.
  destruct terms_reply as [terms|e]; simpl.
  - destruct (QuoteAmount req <? MinSwapAmount terms); simpl;
      [ by rewrite omap_app, app_nil_r | ].
    destruct (QuoteAmount req >? MaxSwapAmount terms); simpl;
      [ by rewrite omap_app, app_nil_r | ].
    destruct (GetSweepFee _ _); simpl;
      by rewrite !omap_app, !app_nil_r.
  - by rewrite omap_app, app_nil_r.
Qed.






(** C6.  When [UnchargeQuote] succeeds, the swap fee of the quote is the
    fee base of the server's terms plus the fee rate applied to the
    requested amount; with a fee base of 100 and a fee rate of 0.01, an
    amount of 50_000 gives a swap fee of 600. *)
Theorem C6_swap_fee_base_plus_rate terms req w quote w' :
  UnchargeQuote GetSweepFee MaxSuccessWitnessSize (inl terms) req w
  = (inl quote, w') →
  SwapFee quote
  = CalcFee (QuoteAmount req) (SwapFeeBase terms) (SwapFeeRate terms)
  ∧ SwapFee quote
    = SwapFeeBase terms
      + Qfloor (SwapFeeRate terms * inject_Z (QuoteAmount req))
  ∧ (SwapFeeBase terms = 100 →
     (SwapFeeRate terms == 1 # 100)%Q →
     QuoteAmount req = 50000 →
     SwapFee quote = 600).
Proof.
  unfold UnchargeQuote, mbind, M_bind, call, fail, mret, M_ret. simpl.
  destruct (QuoteAmount req <? MinSwapAmount terms); [done | ].
  destruct (QuoteAmount req >? MaxSwapAmount terms); [done | ].
  destruct (GetSweepFee _ _) as [fee|e]; [ | done].
  intros [= <- <-]. simpl. unfold CalcFee. split; [done | ]. split; [done | ].
  intros -> Hrate ->.
  rewrite (Qfloor_comp _ ((1 # 100) * inject_Z 50000)%Q).
  - reflexivity.
  - by rewrite Hrate.
Qed.

(** C7.  [UnchargeQuote] is read-only: for every answer of the server and of
    the sweeper, every request and every outcome, the client it ran on, and
    so the contents of its store, are what they were, and no write to the
    store is among the calls it made. *)
Theorem C7_UnchargeQuote_read_only terms_reply req w :
  Store (client (UnchargeQuote GetSweepFee MaxSuccessWitnessSize terms_reply req w).2) = Store (client w)
  ∧ client (UnchargeQuote GetSweepFee MaxSuccessWitnessSize terms_reply req w).2 = client w
  ∧ store_writes (trace (UnchargeQuote GetSweepFee MaxSuccessWitnessSize terms_reply req w).2)
    = store_writes (trace w).
Proof.
  split_and!.
  - by rewrite UnchargeQuote_client.
  - apply UnchargeQuote_client.
  - apply UnchargeQuote_store_writes.
Qed.

End Quote.

(** ** The shape of a step *)

Lemma resumeSwap_shape pend w :
  ∃ tr u,
    resumeSwap pend w
    = {| client := set_executor (set_units (λ _, u)) (client w);
         ctxs := ctxs w; trace := trace w ++ tr; threads := threads w |}
    ∧ (stopped (executor_ (client w)) = true →
       u = units (executor_ (client w)))
    ∧ Forall (from FromResume) (submissions tr).
Proof.
  destruct w as [[st [rd sp un ht] rr g store] cs tr ths].
  unfold resumeSwap. destruct (decide _) as [_|_].
  { exists [], un. simpl. rewrite app_nil_r. split_and!; [done | done | ].
    constructor. }
  destruct (resumeUnchargeSwap pend) as [swap|e].
  - unfold initiateSwap, log, set_client, set_executor, set_units. simpl.
    exists [EvResumeUnchargeSwap pend; EvInitiateSwap FromResume swap],
           (if sp then un else un ++ [swap]).
    rewrite <- app_assoc. simpl. split_and!.
    + by destruct sp.
    + by intros ->.
    + repeat constructor.
  - exists [EvResumeUnchargeSwap pend], un. simpl.
    split_and!; [done | done | constructor].
Qed.

Lemma initiateSwap_shape o swap w :
  ∃ u,
    initiateSwap o swap w
    = {| client := set_executor (set_units (λ _, u)) (client w);
         ctxs := ctxs w; trace := trace w ++ [EvInitiateSwap o swap];
         threads := threads w |}
    ∧ (stopped (executor_ (client w)) = true →
       u = units (executor_ (client w))).
Proof.
  destruct w as [[st [rd sp un ht] rr g store] cs tr ths].
  unfold initiateSwap, log, set_client, set_executor, set_units. simpl.
  exists (if sp then un else un ++ [swap]). split.
  - by destruct sp.
  - by intros ->.
Qed.

Lemma Uncharge_new_shape server i c req w :
  ∃ t st tr,
    Uncharge_new server i c req w
    = {| client := set_Store (λ _, st) (client w); ctxs := ctxs w;
         trace := trace w ++ tr;
         threads := <[i := TUncharge t]> (threads w) |}
    ∧ ((∃ swap, t = U_Initiate c swap) ∨ (∃ e, t = U_Return None (Some e)))
    ∧ submissions tr = [].
Proof.
  destruct w as [[st ex rr g store] cs tr ths].
  unfold Uncharge_new, newUnchargeSwap, mbind, M_bind, call, lift, fail,
    createUncharge, mret, M_ret. simpl.
  destruct (reply_terms server) as [terms|e]; simpl.
  2:{ eexists _, store, [_]. split_and!; [done | eauto | done]. }
  destruct (Amount req <? MinSwapAmount terms); simpl.
  { eexists _, store, [_]. split_and!; [done | eauto | done]. }
  destruct (Amount req >? MaxSwapAmount terms); simpl.
  { eexists _, store, [_]. split_and!; [done | eauto | done]. }
  destruct (reply_swap server) as [h|e]; simpl.
  - eexists _, _, [_; _]. unfold set_thread, set_client, log. simpl.
    rewrite <- (app_assoc tr). simpl. split_and!; [done | eauto | done].
  - eexists _, store, [_]. split_and!; [done | eauto | done].
Qed.

Lemma CompareAndSwapUint32_true v v' :
  CompareAndSwapUint32 v 0 1 = (true, v') → v = 0 ∧ v' = 1.
Proof. unfold CompareAndSwapUint32. case_decide; naive_solver. Qed.

Lemma CompareAndSwapUint32_false v v' :
  CompareAndSwapUint32 v 0 1 = (false, v') → v ≠ 0 ∧ v' = v.
Proof. unfold CompareAndSwapUint32. case_decide; naive_solver. Qed.

Lemma select_gate_SelGate gate ctxErr pick :
  select_gate gate ctxErr pick = SelGate → gate = true.
Proof. by destruct gate, ctxErr, pick. Qed.

Lemma select_gate_SelDone gate ctxErr pick e :
  select_gate gate ctxErr pick = SelDone e → ctxErr = Some e.
Proof. destruct gate, ctxErr, pick; naive_solver. Qed.

(** Case analysis on a step, with the new world written out. *)
Ltac step_cases H :=
  let i := fresh "i" in
  destruct H as [[i H] | H]; inversion H; subst; clear H;
  repeat match goal with
    | H : CompareAndSwapUint32 _ 0 1 = (true, _) |- _ =>
        apply CompareAndSwapUint32_true in H as [? ->]
    | H : CompareAndSwapUint32 _ 0 1 = (false, _) |- _ =>
        apply CompareAndSwapUint32_false in H as [? ->]
    | H : select_gate _ _ _ = SelGate |- _ =>
        apply select_gate_SelGate in H
    | H : select_gate _ _ _ = SelDone _ |- _ =>
        apply select_gate_SelDone in H
    | |- context [resumeSwap ?pend ?w] =>
        let tr := fresh "tr" in
        let u := fresh "u" in
        let Hu := fresh "Hu" in
        let Htr := fresh "Htr" in
        destruct (resumeSwap_shape pend w) as (tr & u & -> & Hu & Htr)
    | |- context [initiateSwap ?o ?swap ?w] =>
        let u := fresh "u" in
        let Hu := fresh "Hu" in
        destruct (initiateSwap_shape o swap w) as (u & -> & Hu)
    | |- context [Uncharge_new ?server ?i ?c ?req ?w] =>
        let t := fresh "t" in
        let st := fresh "st" in
        let tr := fresh "tr" in
        let Ht := fresh "Ht" in
        let Htr := fresh "Htr" in
        destruct (Uncharge_new_shape server i c req w)
          as (t & st & tr & -> & Ht & Htr)
    end;
  unfold set_thread, spawn, log, set_ctxs, set_client;
  simpl.

(** Which thread a lookup in the updated pool finds. *)
Ltac pool_cases :=
  repeat match goal with
    | H : <[_ := _]> _ !! _ = Some _ |- _ =>
        apply list_lookup_insert_Some in H as [(-> & <- & ?) | [? H]]
    | H : (_ ++ [_]) !! _ = Some _ |- _ =>
        apply lookup_app_Some in H as [H | [? H]];
        [ | apply list_lookup_singleton_Some in H as [? <-] ]
    end.

Lemma Inv_initial store : Inv (initial store).
Proof.
  split; simpl; try done; by left.
Qed.

Lemma started_step w w' :
  Inv w → step w w' →
  (started (client w') = 0 ∨ started (client w') = 1)
  ∧ (started (client w) = 1 → started (client w') = 1).
Proof.
  intros HI Hs. pose proof (inv_started w HI).
  step_cases Hs; auto.
Qed.

(** Apply the per-thread parts of the invariant to every thread known to
    be in the pool. *)
Ltac learn_threads :=
  repeat match goal with
    | Hinv : ∀ j t, threads ?w !! j = Some t → _,
      H : threads ?w !! ?j = Some ?t |- _ =>
        lazymatch goal with
        | _ : learned_from Hinv j |- _ => fail
        | _ => pose proof (Hinv j t H); assert (learned_from Hinv j) by exact I
        end
    end.

Ltac learn_pairs :=
  repeat match goal with
    | Hinv : ∀ j k tj tk, threads ?w !! j = Some tj →
                          threads ?w !! k = Some tk → _,
      H1 : threads ?w !! ?j = Some ?tj,
      H2 : threads ?w !! ?k = Some ?tk |- _ =>
        lazymatch goal with
        | _ : learned_from Hinv j, _ : learned_from (Hinv, k) j |- _ => fail
        | _ => pose proof (Hinv j k tj tk H1 H2);
               assert (learned_from Hinv j) by exact I;
               assert (learned_from (Hinv, k) j) by exact I
        end
    end.

Ltac threads_solver :=
  pool_cases; learn_threads; learn_pairs; simpl in *;
  repeat match goal with
    | H : (∃ _, _) ∨ (∃ _, _) |- _ => destruct H as [[? ->] | [? ->]]
    end;
  simpl in *; try done; try congruence;
  repeat match goal with
    | t : thread |- _ =>
        destruct t as [[]|[]|[]]; simpl in *; try done; try congruence
    end;
  intuition (congruence || lia).

Lemma inv_fresh_step w w' :
  Inv w → step w w' →
  started (client w') = 0 →
  resumeReady (client w') = false ∧ wg (client w') = 0
  ∧ ∀ j t, threads w' !! j = Some t →
           begun t = false ∧ is_goroutine t = false.
Proof.
  intros [Hst Hfresh _ _ _ _ _ _ _ _] Hs.
  step_cases Hs; intros Hzero; try done;
    destruct (Hfresh Hzero) as (Hrr & Hwg & Hth);
    (split_and!; [done || threads_solver ..
                 | intros jj tj Hjj; threads_solver ]).
Qed.

Lemma inv_active_step w w' :
  Inv w → step w w' →
  ∀ j k tj tk,
    threads w' !! j = Some tj → threads w' !! k = Some tk →
    active tj = true → active tk = true → j = k.
Proof.
  intros [Hst Hfresh Hact _ _ _ _ _ _ _] Hs.
  step_cases Hs; intros jj kk tj tk Hjj Hkk;
    try (by eapply Hact);
    try (destruct Hfresh as (_ & _ & Hth); [done | ]);
    threads_solver.
Qed.

Lemma inv_pass_step w w' :
  Inv w → step w w' →
  ∀ j k tj tk,
    threads w' !! j = Some tj → threads w' !! k = Some tk →
    prespawn tj || alive tj = true → prespawn tk || alive tk = true →
    j = k.
Proof.
  intros [Hst Hfresh Hact Hpass _ _ _ _ _ _] Hs.
  step_cases Hs; intros jj kk tj tk Hjj Hkk;
    try (by eapply Hpass);
    try (destruct Hfresh as (_ & _ & Hth); [done | ]);
    threads_solver.
Qed.

Lemma inv_resumeReady_step w w' :
  Inv w → step w w' →
  resumeReady (client w') = true →
  ∀ j t, threads w' !! j = Some t → prespawn t = false ∧ resuming t = false.
Proof.
  intros [Hst Hfresh Hact Hpass Hrr _ _ _ _ _] Hs.
  step_cases Hs; intros Hready jj tj Hjj;
    try (by eapply Hrr);
    try (destruct Hfresh as (? & _ & Hth); [done | ]);
    try (pose proof (Hrr Hready) as Hno);
    threads_solver.
Qed.

Lemma inv_gates_step w w' :
  Inv w → step w w' →
  ∀ j t, threads w' !! j = Some t →
         (closed_gate t = true → resumeReady (client w') = true)
         ∧ (past_ready t = true → ready (executor_ (client w')) = true)
         ∧ (past_resumeReady t = true → resumeReady (client w') = true).
Proof.
  intros [Hst Hfresh Hact Hpass Hrr Hgates _ _ _ _] Hs.
  step_cases Hs; intros jj tj Hjj;
    try (by eapply Hgates);
    threads_solver.
Qed.

Lemma inv_wg_step w w' :
  Inv w → step w w' →
  ∀ j t, threads w' !! j = Some t →
         (alive t = true → wg (client w') = 1)
         ∧ (prespawn t = true → wg (client w') = 0).
Proof.
  intros [Hst Hfresh Hact Hpass Hrr Hgates Hwg _ _ _] Hs.
  step_cases Hs; intros jj tj Hjj;
    try (by eapply Hwg);
    try (destruct Hfresh as (_ & ? & Hth); [done | ]);
    threads_solver.
Qed.

Lemma inv_fin_step w w' :
  Inv w → step w w' →
  ∀ j t, threads w' !! j = Some t →
         (draining t = true → stopped (executor_ (client w')) = true)
         ∧ (drained t = true → units (executor_ (client w')) = []).
Proof.
  intros [Hst Hfresh Hact Hpass Hrr Hgates Hwg Hfin _ _] Hs.
  step_cases Hs; intros jj tj Hjj;
    try (by eapply Hfin);
    try threads_solver.
  destruct (Hfin _ _ Hjj) as [Hstop Hunits]. split; [done | ].
  intros Hd.
  match goal with
  | H : units _ = _ ++ _ :: _ |- _ => rewrite (Hunits Hd) in H; by destruct u1
  end.
Qed.

(** ** Contexts under cancellation *)

Lemma lookup_cancel c e cs j :
  cancel c e cs !! j = cancel_entry c e j <$> cs !! j.
Proof. unfold cancel. apply list_lookup_imap. Qed.

Lemma root_cancel m e cs c :
  (∃ e0, cs !! c = Some {| parent := None; err := e0 |}) →
  ∃ e0, cancel m e cs !! c = Some {| parent := None; err := e0 |}.
Proof.
  intros [e0 Hc]. rewrite lookup_cancel, Hc. simpl.
  unfold cancel_entry. simpl. destruct e0 as [e0|]; [by eexists | ].
  destruct (bool_decide (c = m)); simpl; by eexists.
Qed.

Lemma ctx_ok_app cs x t : ctx_ok cs t → ctx_ok (cs ++ [x]) t.
Proof.
  destruct t as [[]| |]; simpl; try done.
  - intros [e Hc]. exists e. by apply lookup_app_l_Some.
  - intros [e Hc]. exists e. by apply lookup_app_l_Some.
  - intros (e & Hc & Hm). exists e. split; by apply lookup_app_l_Some.
  - intros (e & Hc & Hm). exists e. split; by apply lookup_app_l_Some.
  - intros (e & Hc & Hm). exists e. split; by apply lookup_app_l_Some.
  - intros (e & Hc & Hm). exists e. split; by apply lookup_app_l_Some.
Qed.

(** A caller cancels its own context [c0], a root that is not done: the
    main context derived from it is done with it, no other. *)
Lemma derived_cancel c0 e0 cs c m e :
  cs !! c0 = Some {| parent := None; err := None |} →
  cs !! c = Some {| parent := None; err := e |} →
  cs !! m = Some {| parent := Some c; err := e |} →
  ∃ e', cancel c0 e0 cs !! c = Some {| parent := None; err := e' |}
        ∧ cancel c0 e0 cs !! m = Some {| parent := Some c; err := e' |}.
Proof.
  intros H0 Hc Hm. rewrite !lookup_cancel, Hc, Hm. simpl.
  unfold cancel_entry. simpl.
  destruct e as [e|]; [by eexists | ].
  assert (m ≠ c0) as Hne by (intros ->; congruence).
  repeat case_bool_decide; simplify_eq; simpl; by eexists.
Qed.

Lemma ctx_ok_cancel_root c0 e0 cs t :
  cs !! c0 = Some {| parent := None; err := None |} →
  ctx_ok cs t → ctx_ok (cancel c0 e0 cs) t.
Proof.
  intros H0. destruct t as [[]| |]; simpl; try done;
    try (by apply root_cancel);
    intros (e & Hc & Hm); by eapply derived_cancel.
Qed.

Lemma ctx_ok_cancel_inactive m e cs t :
  active t = false → ctx_ok cs t → ctx_ok (cancel m e cs) t.
Proof.
  destruct t as [[]| |]; simpl; try done. intros _. apply root_cancel.
Qed.

Lemma ctx_ok_WithCancel cs c :
  (∃ e, cs !! c = Some {| parent := None; err := e |}) →
  ctx_ok (WithCancel c cs).2 (TRun (R_QueryStore c (WithCancel c cs).1)).
Proof.
  intros [e Hc]. simpl. exists e. split.
  - by apply lookup_app_l_Some.
  - unfold ctx_Err. rewrite Hc. simpl. by rewrite list_lookup_middle.
Qed.

Lemma inv_ctx_step w w' :
  Inv w → step w w' →
  ∀ j t, threads w' !! j = Some t → ctx_ok (ctxs w') t.
Proof.
  intros [_ _ Hact _ _ _ _ _ Hctx _] Hs.
  step_cases Hs; intros jj tj Hjj;
    try (by eapply Hctx); pool_cases; learn_threads;
    simpl in *; try done;
    try (by apply ctx_ok_app; eauto);
    try (by apply ctx_ok_cancel_root; eauto).
  all: try (apply ctx_ok_cancel_inactive; [ | by eauto];
            destruct (active tj) eqn:Ha; [ | done];
            match goal with
            | Hi : threads _ !! ?i = Some _, Hne : ?i ≠ ?j |- _ =>
                destruct Hne; symmetry; by eapply Hact
            end).
  match goal with
  | Hc : ∃ e, ctxs _ !! ?c = Some _ |- _ =>
      exact (ctx_ok_WithCancel _ c Hc)
  end.
Qed.

(** ** The order of submissions *)

Lemma resumed_first_app tr tr' :
  resumed_first tr → Forall (from FromUncharge) (submissions tr') →
  resumed_first (tr ++ tr').
Proof.
  intros (tr1 & tr2 & -> & H1 & H2) H'. exists tr1, (tr2 ++ tr').
  rewrite app_assoc. split_and!; [done | done | ].
  rewrite submissions_app. by apply Forall_app.
Qed.

Lemma resumed_first_closing tr :
  Forall (from FromResume) (submissions tr) → resumed_first tr.
Proof.
  intros H. exists tr, []. rewrite app_nil_r. split_and!; [done | done | ].
  constructor.
Qed.

Lemma resuming_first_app tr tr' :
  Forall (from FromResume) (submissions tr) →
  Forall (from FromResume) (submissions tr') →
  Forall (from FromResume) (submissions (tr ++ tr')).
Proof. intros H H'. rewrite submissions_app. by apply Forall_app. Qed.

Lemma inv_trace_step w w' :
  Inv w → step w w' →
  if resumeReady (client w') then resumed_first (trace w')
  else Forall (from FromResume) (submissions (trace w')).
Proof.
  intros [_ _ _ _ Hrr Hgates _ _ _ Htrace] Hs.
  step_cases Hs; try done;
    learn_threads; simpl in *;
    destruct (resumeReady (client w)) eqn:Hready;
    try (by apply resumed_first_closing);
    try (apply resumed_first_app; [done | ]);
    try (apply resuming_first_app; [done | ]);
    try (rewrite Htr);
    try (by repeat constructor);
    try (specialize (Hrr eq_refl); learn_threads; simpl in *);
    intuition congruence.
Qed.

Lemma Inv_step w w' : Inv w → step w w' → Inv w'.
Proof.
  intros HI Hs. split.
  - by apply (started_step w w').
  - by apply (inv_fresh_step w w').
  - by apply (inv_active_step w w').
  - by apply (inv_pass_step w w').
  - by apply (inv_resumeReady_step w w').
  - by apply (inv_gates_step w w').
  - by apply (inv_wg_step w w').
  - by apply (inv_fin_step w w').
  - by apply (inv_ctx_step w w').
  - by apply (inv_trace_step w w').
Qed.

Lemma Inv_steps w w' : Inv w → rtc step w w' → Inv w'.
Proof. intros HI Hs. induction Hs; eauto using Inv_step. Qed.

Lemma reachable_Inv w : reachable w → Inv w.
Proof. intros [store Hs]. eapply Inv_steps; [apply Inv_initial | done]. Qed.

Lemma reachable_steps w w' : reachable w → rtc step w w' → reachable w'.
Proof. intros [store Hs] Hs'. exists store. by etrans. Qed.

(** ** The gates of [Uncharge] *)

Lemma submissions_after_uncharge tr pre swap post :
  resumed_first tr →
  tr = pre ++ EvInitiateSwap FromUncharge swap :: post →
  Forall (from FromUncharge) (submissions post).
Proof.
  intros (tr1 & tr2 & -> & H1 & H2) Heq.
  apply app_eq_inv in Heq as [(k & -> & Hk) | (k & -> & ->)].
  - destruct k as [|x k]; simpl in Hk.
    + subst tr2. simpl in H2. by apply Forall_cons in H2 as [_ H2].
    + injection Hk as <- ->.
      rewrite submissions_app in H1. simpl in H1.
      apply Forall_app in H1 as [_ H1]. apply Forall_cons in H1 as [H1 _].
      discriminate H1.
  - rewrite submissions_app in H2. simpl in H2.
    apply Forall_app in H2 as [_ H2]. by apply Forall_cons in H2 as [_ H2].
Qed.

(** C1.  In every world the client can reach: an [Uncharge] call that is
    about to build its swap, about to submit it, or has returned its hash
    has seen both gates fired, and a call waiting on a gate that has not
    fired, with a context that is not done, cannot move; once
    [resumeReady] is closed the resume pass is over (no [Run] call has yet
    to start it and the goroutine is past its loop); and in the order of
    the calls made, nothing the resume pass submits comes after a swap
    submitted by [Uncharge]. *)
Theorem C1_Uncharge_submits_after_resume_pass w :
  reachable w →
  (∀ i t, threads w !! i = Some t → past_resumeReady t = true →
          ready (executor_ (client w)) = true
          ∧ resumeReady (client w) = true)
  ∧ (∀ i c req w',
       threads w !! i = Some (TUncharge (U_Wait1 c req)) →
       ready (executor_ (client w)) = false →
       ctx_Err (ctxs w) c = None →
       ¬ tstep i w w')
  ∧ (∀ i c req w',
       threads w !! i = Some (TUncharge (U_Wait2 c req)) →
       resumeReady (client w) = false →
       ctx_Err (ctxs w) c = None →
       ¬ tstep i w w')
  ∧ (resumeReady (client w) = true →
     ∀ j t, threads w !! j = Some t →
            prespawn t = false ∧ resuming t = false)
  ∧ (∀ pre swap post,
       trace w = pre ++ EvInitiateSwap FromUncharge swap :: post →
       Forall (from FromUncharge) (submissions post)).
Proof.
  intros Hr. pose proof (reachable_Inv w Hr) as HI. split_and!.
  - intros i t Hi Hp. destruct (inv_gates w HI i t Hi) as (_ & H1 & H2).
    split; [apply H1 | by apply H2].
    by destruct t as [| |[]].
  - intros i c req w' Hi Hg Hc Hs.
    inversion Hs; simplify_eq;
      match goal with
      | H : select_gate _ _ _ = _ |- _ => rewrite Hg, Hc in H; discriminate H
      end.
  - intros i c req w' Hi Hg Hc Hs.
    inversion Hs; simplify_eq;
      match goal with
      | H : select_gate _ _ _ = _ |- _ => rewrite Hg, Hc in H; discriminate H
      end.
  - apply (inv_resumeReady w HI).
  - intros pre swap post Htr.
    pose proof (inv_trace w HI) as Ht.
    destruct (resumeReady (client w)).
    + by eapply submissions_after_uncharge.
    + rewrite Htr, submissions_app in Ht. simpl in Ht.
      apply Forall_app in Ht as [_ Ht]. apply Forall_cons in Ht as [Ht _].
      discriminate Ht.
Qed.

(** ** Starting once *)

Lemma begun_started w j t :
  Inv w → threads w !! j = Some t → begun t = true → started (client w) = 1.
Proof.
  intros HI Hj Hb. destruct (inv_started w HI) as [H0|H1]; [ | done].
  destruct (inv_fresh w HI H0) as (_ & _ & Hth).
  destruct (Hth j t Hj) as [Hn _]. congruence.
Qed.

Lemma Run_again_fails w j c w' :
  started (client w) = 1 →
  threads w !! j = Some (TRun (R_Start c)) →
  tstep j w w' →
  w' = set_thread j (TRun (R_Return (Some errStartedOnce))) w.
Proof.
  intros H1 Hj Hs. inversion Hs; simplify_eq; [ | done].
  match goal with
  | H : CompareAndSwapUint32 _ _ _ = _ |- _ =>
      apply CompareAndSwapUint32_true in H as [H _]; lia
  end.
Qed.

Lemma started_steps w w' :
  Inv w → started (client w) = 1 → rtc step w w' → started (client w') = 1.
Proof.
  intros HI H1 Hs. induction Hs as [|w w1 w2 Hs _ IH]; [done | ].
  apply IH; [by eapply Inv_step | by eapply started_step].
Qed.

(** C3.  If some [Run] call on the client has passed its first statement,
    whether it is still running or has returned, every later [Run] call
    fails with the started-once error, and the failing call changes nothing
    but its own result: the client, the contexts and the calls made on the
    collaborators (no store query, no resume pass, no executor start) are
    what they were. *)
Theorem C3_second_Run_fails_without_effect w k t j c w' :
  reachable w →
  threads w !! k = Some t → begun t = true →
  threads w !! j = Some (TRun (R_Start c)) →
  tstep j w w' →
  w' = set_thread j (TRun (R_Return (Some errStartedOnce))) w
  ∧ client w' = client w ∧ ctxs w' = ctxs w ∧ trace w' = trace w
  ∧ length (threads w') = length (threads w).
Proof.
  intros Hr Hk Hb Hj Hs.
  assert (w' = set_thread j (TRun (R_Return (Some errStartedOnce))) w) as ->.
  { apply (Run_again_fails w j c w'); [ | done | done].
    apply (begun_started w k t); [by apply reachable_Inv | done | done]. }
  split_and!; try done. simpl. apply length_insert.
Qed.

(** C10.  The first action of [Run] is the compare-and-swap on [started]:
    after the first step of a [Run] call the flag is 1 and no call on a
    collaborator has been made; the flag is never reset; so once a [Run]
    call has begun, also one that returned early with an error, every
    later [Run] call on the client fails with the started-once error. *)
Theorem C10_started_is_set_first_and_never_reset w :
  reachable w →
  (∀ j c w',
     threads w !! j = Some (TRun (R_Start c)) → tstep j w w' →
     started (client w') = 1 ∧ trace w' = trace w)
  ∧ (∀ w', started (client w) = 1 → rtc step w w' →
           started (client w') = 1)
  ∧ (∀ k t w' j c w'',
       threads w !! k = Some t → begun t = true →
       rtc step w w' →
       threads w' !! j = Some (TRun (R_Start c)) → tstep j w' w'' →
       threads w'' !! j = Some (TRun (R_Return (Some errStartedOnce)))
       ∧ started (client w'') = 1).
Proof.
  intros Hr. pose proof (reachable_Inv w Hr) as HI. split_and!.
  - intros j c w' Hj Hs. inversion Hs; simplify_eq.
    + match goal with
      | H : CompareAndSwapUint32 _ _ _ = _ |- _ =>
          apply CompareAndSwapUint32_true in H as [_ ->]
      end. done.
    + match goal with
      | H : CompareAndSwapUint32 _ _ _ = _ |- _ =>
          apply CompareAndSwapUint32_false in H as [H _]
      end.
      simpl. split; [ | done]. destruct (inv_started w HI); [done | done].
  - intros w'. by apply started_steps.
  - intros k t w' j c w'' Hk Hb Hs Hj Hs'.
    assert (started (client w') = 1) as H1.
    { apply (started_steps w w'); [done | | done].
      by apply (begun_started w k t). }
    rewrite (Run_again_fails w' j c w'' H1 Hj Hs'). simpl. split; [ | done].
    apply list_lookup_insert_eq. by eapply lookup_lt_Some.
Qed.

(** ** Cancelling [Run] *)

Lemma winding_down_step i w w' t :
  threads w !! i = Some t → winding_down t = true → step w w' →
  ∃ t', threads w' !! i = Some t' ∧ winding_down t' = true.
Proof.
  intros Hi Hw Hs.
  step_cases Hs;
    try (by exists t);
    try (exists t; split; [by apply lookup_app_l_Some | done]);
    match goal with
    | |- context [<[?i0 := _]> _] =>
        destruct (decide (i0 = i)) as [->|Hne];
        [ simplify_eq; simpl in *; try done;
          eexists;
          (split; [ apply list_lookup_insert_eq; by eapply lookup_lt_Some | ])
        | exists t; (split; [ | done]);
          try apply lookup_app_l_Some;
          by rewrite list_lookup_insert_ne ]
    end.
  all: repeat case_match; simplify_eq; done.
Qed.

Lemma winding_down_steps i w w' t :
  threads w !! i = Some t → winding_down t = true → rtc step w w' →
  ∃ t', threads w' !! i = Some t' ∧ winding_down t' = true.
Proof.
  intros Hi Hw Hs. revert t Hi Hw.
  induction Hs as [w|w w1 w2 Hs _ IH]; intros t Hi Hw; [by exists t | ].
  destruct (winding_down_step i w w1 t Hi Hw Hs) as (t1 & Hi1 & Hw1).
  by apply (IH t1).
Qed.

Lemma main_context_follows w i c m e :
  Inv w → threads w !! i = Some (TRun (R_InExecutor c m)) →
  ctx_Err (ctxs w) c = Some e → ctx_Err (ctxs w) m = Some e.
Proof.
  intros HI Hi Hc. destruct (inv_ctx w HI i _ Hi) as (e0 & Hc0 & Hm0).
  unfold ctx_Err in *. rewrite Hc0 in Hc. rewrite Hm0. done.
Qed.

(** ** Cancelling [Uncharge] *)

(** C8 (amended).  When the select of [waitForInitialized] on a gate is
    evaluated while that gate has not fired and the caller's context is
    done, [Uncharge] returns the context's error and a nil hash, and
    nothing else changes: no swap is built, persisted or submitted.  So
    does a [waitForInitialized] that sees one snapshot in which the context
    is done and the gates have not both fired. *)
Theorem C8_Uncharge_returns_context_error :
  (∀ w i c req e w',
     threads w !! i = Some (TUncharge (U_Wait1 c req)) →
     ctx_Err (ctxs w) c = Some e →
     ready (executor_ (client w)) = false →
     tstep i w w' →
     w' = set_thread i (TUncharge (U_Return None (Some e))) w)
  ∧ (∀ w i c req e w',
       threads w !! i = Some (TUncharge (U_Wait2 c req)) →
       ctx_Err (ctxs w) c = Some e →
       resumeReady (client w) = false →
       tstep i w w' →
       w' = set_thread i (TUncharge (U_Return None (Some e))) w)
  ∧ (∀ executor_ready resume_ready e pick1 pick2,
       executor_ready && resume_ready = false →
       waitForInitialized executor_ready resume_ready (Some e) pick1 pick2
       = WaitReturned (Some e)).
Proof.
  split_and!.
  - intros w i c req e w' Hi Hc Hg Hs.
    inversion Hs; simplify_eq;
      match goal with
      | H : select_gate _ _ _ = _ |- _ =>
          rewrite Hg, Hc in H; simpl in H; by simplify_eq
      end.
  - intros w i c req e w' Hi Hc Hg Hs.
    inversion Hs; simplify_eq;
      match goal with
      | H : select_gate _ _ _ = _ |- _ =>
          rewrite Hg, Hc in H; simpl in H; by simplify_eq
      end.
  - intros [] [] e [] []; done.
Qed.

(** ** The resume goroutine *)

Lemma set_thread_twice i a b w :
  set_thread i a (set_thread i b w) = set_thread i a w.
Proof. unfold set_thread. simpl. by rewrite list_insert_insert_eq. Qed.

Lemma resumeSwap_set_thread pend i t w :
  resumeSwap pend (set_thread i t w) = set_thread i t (resumeSwap pend w).
Proof.
  unfold resumeSwap. destruct (decide _); [done | ].
  by destruct (resumeUnchargeSwap pend).
Qed.

Lemma resumeSwaps_set_thread swaps i t w :
  resumeSwaps swaps (set_thread i t w) = set_thread i t (resumeSwaps swaps w).
Proof.
  revert w. induction swaps as [|pend rest IH]; intros w; simpl; [done | ].
  by rewrite resumeSwap_set_thread, IH.
Qed.

Lemma resumeSwap_threads pend w : threads (resumeSwap pend w) = threads w.
Proof. by destruct (resumeSwap_shape pend w) as (? & ? & -> & _). Qed.

Lemma resumeSwap_client pend w :
  resumeReady (client (resumeSwap pend w)) = resumeReady (client w).
Proof. by destruct (resumeSwap_shape pend w) as (? & ? & -> & _). Qed.

Lemma resumeSwaps_threads swaps w : threads (resumeSwaps swaps w) = threads w.
Proof.
  revert w. induction swaps as [|pend rest IH]; intros w; simpl; [done | ].
  by rewrite IH, resumeSwap_threads.
Qed.

Lemma resume_pass_runs swaps w i m :
  threads w !! i = Some (TResume (G_Resume m swaps)) →
  rtc (tstep i) w (set_thread i (TResume (G_Resume m [])) (resumeSwaps swaps w)).
Proof.
  revert w. induction swaps as [|pend rest IH]; intros w Hi; simpl.
  - unfold set_thread. rewrite list_insert_id by done. by destruct w.
  - eapply rtc_l; [by apply Resume_next | ].
    pose proof (IH (set_thread i (TResume (G_Resume m rest))
                      (resumeSwap pend w))) as Hrest.
    rewrite resumeSwaps_set_thread, set_thread_twice in Hrest.
    apply Hrest. simpl. apply list_lookup_insert_eq.
    rewrite resumeSwap_threads. by eapply lookup_lt_Some.
Qed.

(** C9.  Whatever [resumeUnchargeSwap] answers for each record, the
    resume goroutine runs its pass to the end: [resumeUnchargeSwap] is
    called on every Pending record of the list, in order, also after
    failed ones; the goroutine can always take its next step, and having
    gone through the list it closes [resumeReady] and exits.  In every
    world the client can reach, a goroutine past its pass has closed the
    gate. *)
Theorem C9_resume_pass_survives_failures w i m swaps :
  threads w !! i = Some (TResume (G_Resume m swaps)) →
  resume_calls (trace (resumeSwaps swaps w))
  = resume_calls (trace w) ++ filter pending swaps
  ∧ (∃ w', rtc (tstep i) w w'
           ∧ threads w' !! i = Some (TResume G_Exit)
           ∧ resumeReady (client w') = true
           ∧ trace w' = trace (resumeSwaps swaps w))
  ∧ (∀ w0 j t,
       reachable w0 → threads w0 !! j = Some t → closed_gate t = true →
       resumeReady (client w0) = true).
Proof.
  intros Hi. split_and!.
  - apply resumeSwaps_resume_calls.
  - assert (i < length (threads w))%nat as Hlt by (by eapply lookup_lt_Some).
    eexists. split_and!.
    + etrans; [by apply resume_pass_runs | ].
      eapply rtc_l.
      { apply (Resume_end _ _ m). simpl. apply list_lookup_insert_eq.
        by rewrite resumeSwaps_threads. }
      eapply rtc_l.
      { apply Resume_close. simpl. apply list_lookup_insert_eq.
        by rewrite length_insert, resumeSwaps_threads. }
      eapply rtc_l; [ | apply rtc_refl].
      apply Resume_wgDone. simpl. apply list_lookup_insert_eq.
      by rewrite !length_insert, resumeSwaps_threads.
    + simpl. apply list_lookup_insert_eq.
      by rewrite !length_insert, resumeSwaps_threads.
    + done.
    + done.
  - intros w0 j t Hr Hj Hc.
    destruct (inv_gates w0 (reachable_Inv w0 Hr) j t Hj) as [Hg _].
    by apply Hg.
Qed.

(** * Further properties of the client *)

(** ** [UnchargeQuote], outcome by outcome *)

(** X1.  [UnchargeQuote] succeeds exactly when the server answers with
    terms, the amount lies within the terms' bounds, both bounds included,
    and the sweeper answers with a fee; the quote then carries the computed
    swap fee, the sweeper's fee as miner fee and the terms' prepay amount,
    and the server and the sweeper have each been called once, in that
    order. *)
Theorem X1_UnchargeQuote_succeeds_iff
    (GetSweepFee : Z → Z → result btcutil_Amount) (MaxSuccessWitnessSize : Z)
    terms_reply req w quote w' :
  UnchargeQuote GetSweepFee MaxSuccessWitnessSize terms_reply req w
  = (inl quote, w')
  ↔ ∃ terms fee,
      terms_reply = inl terms
      ∧ MinSwapAmount terms ≤ QuoteAmount req ≤ MaxSwapAmount terms
      ∧ GetSweepFee MaxSuccessWitnessSize (SweepConfTarget req) = inl fee
      ∧ quote = {| SwapFee := CalcFee (QuoteAmount req) (SwapFeeBase terms)
                                (SwapFeeRate terms);
                   MinerFee := fee; PrepayAmount := PrepayAmt terms |}
      ∧ w' = log (EvGetSweepFee MaxSuccessWitnessSize (SweepConfTarget req))
               (log EvGetUnchargeTerms w).
Proof.
  unfold UnchargeQuote, mbind, M_bind, call, fail, mret, M_ret.
  destruct terms_reply as [terms|e]; simpl.
  2:{ split; [done | ]. by intros (? & ? & ? & _). }
  destruct (Z.ltb_spec (QuoteAmount req) (MinSwapAmount terms)).
  { split; [done | ]. intros (? & ? & [= <-] & ? & _). lia. }
  destruct (Z.gtb_spec (QuoteAmount req) (MaxSwapAmount terms)).
  { split; [done | ]. intros (? & ? & [= <-] & ? & _). lia. }
  destruct (GetSweepFee _ _) as [fee|e] eqn:Hfee.
  - split.
    + intros [= <- <-]. exists terms, fee. split_and!; try done; lia.
    + intros (? & ? & [= <-] & _ & [= <-] & -> & ->). done.
  - split; [done | ]. by intros (? & ? & _ & _ & ? & _).
Qed.

(** X2.  Every error of [UnchargeQuote] is one of four, tried in this
    order: the server's error, as [UnchargeTerms] returns it on the same
    answer; the amount-too-low error; the amount-too-high error, only for
    an amount that is not below the minimum; the sweeper's error.  The
    sweeper is consulted only in the last case: before that only the
    server has been called. *)
Theorem X2_UnchargeQuote_errors
    (GetSweepFee : Z → Z → result btcutil_Amount) (MaxSuccessWitnessSize : Z)
    terms_reply req w e w' :
  UnchargeQuote GetSweepFee MaxSuccessWitnessSize terms_reply req w
  = (inr e, w') →
  (terms_reply = inr e
   ∧ Client_UnchargeTerms terms_reply w = (inr e, w')
   ∧ w' = log EvGetUnchargeTerms w)
  ∨ (∃ terms, terms_reply = inl terms
              ∧ QuoteAmount req < MinSwapAmount terms
              ∧ e = ErrSwapAmountTooLow ∧ w' = log EvGetUnchargeTerms w)
  ∨ (∃ terms, terms_reply = inl terms
              ∧ MinSwapAmount terms ≤ QuoteAmount req
              ∧ MaxSwapAmount terms < QuoteAmount req
              ∧ e = ErrSwapAmountTooHigh ∧ w' = log EvGetUnchargeTerms w)
  ∨ (∃ terms, terms_reply = inl terms
              ∧ MinSwapAmount terms ≤ QuoteAmount req ≤ MaxSwapAmount terms
              ∧ GetSweepFee MaxSuccessWitnessSize (SweepConfTarget req)
                = inr e
              ∧ w' = log (EvGetSweepFee MaxSuccessWitnessSize
                            (SweepConfTarget req))
                       (log EvGetUnchargeTerms w)).
Proof.
  unfold UnchargeQuote, Client_UnchargeTerms, mbind, M_bind, call, fail,
    mret, M_ret.
  destruct terms_reply as [terms|e0]; simpl.
  2:{ intros [= <- <-]. by left. }
  destruct (Z.ltb_spec (QuoteAmount req) (MinSwapAmount terms)).
  { intros [= <- <-]. right; left. by exists terms. }
  destruct (Z.gtb_spec (QuoteAmount req) (MaxSwapAmount terms)).
  { intros [= <- <-]. right; right; left. exists terms.
    split_and!; try done; lia. }
  destruct (GetSweepFee _ _) as [fee|e0] eqn:Hfee; [done | ].
  intros [= <- <-]. right; right; right. exists terms.
  split_and!; try done; lia.
Qed.

(** ** [waitForInitialized], outcome by outcome *)

(** X3.  On one snapshot of the gates and the context,
    [waitForInitialized] returns nil only when both gates have fired, and
    always does so then if the context is live; it blocks exactly when the
    context is live and a gate has not fired; and the only error it returns
    is the context's. *)
Theorem X3_waitForInitialized_outcomes
    executor_ready resume_ready ctxErr pick1 pick2 :
  (waitForInitialized executor_ready resume_ready ctxErr pick1 pick2
   = WaitReturned None
   → executor_ready = true ∧ resume_ready = true)
  ∧ (executor_ready = true → resume_ready = true → ctxErr = None →
     waitForInitialized executor_ready resume_ready ctxErr pick1 pick2
     = WaitReturned None)
  ∧ (waitForInitialized executor_ready resume_ready ctxErr pick1 pick2
     = WaitBlocked
     ↔ ctxErr = None ∧ (executor_ready = false ∨ resume_ready = false))
  ∧ (∀ e,
       waitForInitialized executor_ready resume_ready ctxErr pick1 pick2
       = WaitReturned (Some e)
       → ctxErr = Some e).
Proof.
  split_and!.
  - destruct executor_ready, resume_ready, ctxErr as [e0|], pick1, pick2;
      simpl; intros; simplify_eq; done.
  - by intros -> -> ->.
  - destruct executor_ready, resume_ready, ctxErr as [e0|], pick1, pick2;
      simpl;
      (split; [ intros Hb; simplify_eq; auto
              | intros [Hc [Hg|Hg]]; simplify_eq; done ]).
  - destruct executor_ready, resume_ready, ctxErr as [e0|], pick1, pick2;
      intros e He; cbv in He; simplify_eq; done.
Qed.

(** ** [resumeSwaps] on parts of a list *)

Lemma resumeSwaps_app swaps1 swaps2 w :
  resumeSwaps (swaps1 ++ swaps2) w = resumeSwaps swaps2 (resumeSwaps swaps1 w).
Proof.
  revert w. induction swaps1 as [|pend rest IH]; intros w; simpl; [done | ].
  apply IH.
Qed.

Lemma resumeSwap_frame pend w :
  started (client (resumeSwap pend w)) = started (client w)
  ∧ resumeReady (client (resumeSwap pend w)) = resumeReady (client w)
  ∧ wg (client (resumeSwap pend w)) = wg (client w)
  ∧ Store (client (resumeSwap pend w)) = Store (client w)
  ∧ ctxs (resumeSwap pend w) = ctxs w
  ∧ threads (resumeSwap pend w) = threads w.
Proof. by destruct (resumeSwap_shape pend w) as (? & ? & -> & _). Qed.

(** X4.  The pass of [resumeSwaps] over a list in two parts is the pass
    over the first part followed by the pass over the second; over a list
    without Pending records it leaves everything as it was; and over any
    list it leaves the started flag, the [resumeReady] gate, the wait
    group, the store, the contexts and the threads untouched: it only calls
    [resumeUnchargeSwap] and the executor. *)
Theorem X4_resumeSwaps_composes swaps1 swaps2 w :
  resumeSwaps (swaps1 ++ swaps2) w = resumeSwaps swaps2 (resumeSwaps swaps1 w)
  ∧ (Forall (λ pend, ¬ pending pend) swaps1 → resumeSwaps swaps1 w = w)
  ∧ started (client (resumeSwaps swaps1 w)) = started (client w)
  ∧ resumeReady (client (resumeSwaps swaps1 w)) = resumeReady (client w)
  ∧ wg (client (resumeSwaps swaps1 w)) = wg (client w)
  ∧ Store (client (resumeSwaps swaps1 w)) = Store (client w)
  ∧ ctxs (resumeSwaps swaps1 w) = ctxs w
  ∧ threads (resumeSwaps swaps1 w) = threads w.
Proof.
  split; [apply resumeSwaps_app | ]. split.
  - revert w. induction swaps1 as [|pend rest IH]; intros w Hall; [done | ].
    apply Forall_cons in Hall as [Hp Hrest]. simpl.
    rewrite resumeSwap_terminal by done. by apply IH.
  - revert w. induction swaps1 as [|pend rest IH]; intros w; [done | ].
    simpl. destruct (IH (resumeSwap pend w)) as (-> & -> & -> & -> & -> & ->).
    apply resumeSwap_frame.
Qed.

(** ** [NewClient] *)

(** X5.  [NewClient] opens the store before it dials the server: when the
    store cannot be opened it returns that error and the server is not
    dialled; when the dial fails it returns that error and the store it
    opened stays open; when both succeed it returns a client that is not
    started and whose [resumeReady] gate has not fired, and a cleanup that
    closes the server connection and leaves the store open. *)
Theorem X5_NewClient_outcomes store_reply server_error r :
  (∀ e, store_reply = inr e →
        NewClient_call store_reply server_error r = (inr e, r))
  ∧ (∀ store e,
       store_reply = inl store → server_error = Some e →
       (NewClient_call store_reply server_error r).1 = inr e
       ∧ store_open (NewClient_call store_reply server_error r).2 = true
       ∧ server_open (NewClient_call store_reply server_error r).2
         = server_open r)
  ∧ (∀ store,
       store_reply = inl store → server_error = None →
       ∃ s close,
         (NewClient_call store_reply server_error r).1 = inl (s, close)
         ∧ started s = 0 ∧ resumeReady s = false
         ∧ ready (executor_ s) = false ∧ Store s = store
         ∧ store_open (NewClient_call store_reply server_error r).2 = true
         ∧ server_open (NewClient_call store_reply server_error r).2 = true
         ∧ ∀ r', store_open (close r') = store_open r'
                 ∧ server_open (close r') = false).
Proof.
  split_and!.
  - by intros e ->.
  - by intros store e -> ->.
  - intros store -> ->. exists (NewClient store), cleanup.
    split_and!; done.
Qed.

(** ** The log writer *)

Lemma logWriter_Writes_cons accepted p rest stdout :
  logWriter_Writes ((accepted, p) :: rest) stdout
  = ((length p, None)
       :: (logWriter_Writes rest (Stdout_Write accepted p stdout)).1,
     (logWriter_Writes rest (Stdout_Write accepted p stdout)).2).
Proof.
  simpl. by destruct (logWriter_Writes rest (Stdout_Write accepted p stdout)).
Qed.

(** X6.  [logWriter.Write] reports every slice as written in full, with a
    nil error, whatever standard output did with it: over any sequence of
    writes every call returns the length of its slice and [nil], the counts
    returned add up to the bytes given, standard output only grows, by at
    most that many bytes, and holds exactly the bytes given, in order, when
    no write to standard output was short. *)
Theorem X6_logWriter_reports_full_writes
    (ps : list (nat * list Byte.byte)) (stdout : list Byte.byte) :
  (logWriter_Writes ps stdout).1
  = (λ ap, (length ap.2, None : option error)) <$> ps
  ∧ Forall (λ r, r.2 = None) (logWriter_Writes ps stdout).1
  ∧ sum_list ((logWriter_Writes ps stdout).1.*1) = length (concat (ps.*2))
  ∧ stdout `prefix_of` (logWriter_Writes ps stdout).2
  ∧ (length (logWriter_Writes ps stdout).2
     ≤ length stdout + sum_list ((logWriter_Writes ps stdout).1.*1))%nat
  ∧ (Forall (λ ap, length ap.2 ≤ ap.1)%nat ps →
     (logWriter_Writes ps stdout).2 = stdout ++ concat (ps.*2)).
Proof.
  revert stdout. induction ps as [|[accepted p] rest IH]; intros stdout.
  - simpl. split_and!; try done.
    + lia.
    + intros _. by rewrite app_nil_r.
  - rewrite logWriter_Writes_cons. simpl.
    destruct (IH (Stdout_Write accepted p stdout))
      as (Hns & Hnil & Hsum & Hpre & Hlen & Hfull).
    unfold Stdout_Write in *. split_and!.
    + by rewrite Hns.
    + by constructor.
    + change (list_fmap _ _ fst ?l) with (l.*1).
      rewrite Hsum, length_app. done.
    + etrans; [ | exact Hpre]. by apply prefix_app_r.
    + change (list_fmap _ _ fst ?l) with (l.*1).
      rewrite length_app, length_take in Hlen. lia.
    + intros Hall. apply Forall_cons in Hall as [Hp Hrest]. simpl in Hp.
      rewrite Hfull by done. rewrite take_ge by done.
      by rewrite <- app_assoc.
Qed.

(** ** The resume pass runs once, over the startup snapshot *)

Lemma Uncharge_new_cases server i c req w :
  (∃ e, Uncharge_new server i c req w
        = set_thread i (TUncharge (U_Return None (Some e)))
            (log (EvNewUnchargeSwap req) w))
  ∨ (∃ h,
       Uncharge_new server i c req w
       = set_thread i
           (TUncharge
              (U_Initiate c
                 {| hash := h;
                    initiationHeight := height (executor_ (client w));
                    request := req |}))
           (set_client
              (set_Store
                 (λ s, s ++ [{| Hash := h; State := StateInitiated;
                                InitiationHeight :=
                                  height (executor_ (client w));
                                Contract := req |}]))
              (log (EvCreateUncharge
                      {| Hash := h; State := StateInitiated;
                         InitiationHeight := height (executor_ (client w));
                         Contract := req |})
                 (log (EvNewUnchargeSwap req) w)))).
Proof.
  unfold Uncharge_new, newUnchargeSwap, mbind, M_bind, call, lift, fail,
    createUncharge, mret, M_ret.
  destruct (reply_terms server) as [terms|e]; simpl; [ | by left; eexists].
  destruct (Amount req <? MinSwapAmount terms); [by left; eexists | ].
  destruct (Amount req >? MaxSwapAmount terms); [by left; eexists | ].
  destruct (reply_swap server) as [h|e]; simpl; [ | by left; eexists].
  right. by exists h.
Qed.

Lemma resumeSwap_calls pend w :
  resume_calls (trace (resumeSwap pend w))
  = resume_calls (trace w) ++ (if decide (pending pend) then [pend] else []).
Proof.
  destruct (decide (pending pend)) as [Hp|Hp].
  - by apply resumeSwap_resume_calls.
  - rewrite resumeSwap_terminal by done. by rewrite app_nil_r.
Qed.

Lemma resumeSwap_events pend w :
  ∃ tr u,
    resumeSwap pend w
    = {| client := set_executor (set_units (λ _, u)) (client w);
         ctxs := ctxs w; trace := trace w ++ tr; threads := threads w |}
    ∧ resume_calls tr = (if decide (pending pend) then [pend] else [])
    ∧ Forall (λ ev, ev = EvResumeUnchargeSwap pend
                    ∨ ∃ swap, ev = EvInitiateSwap FromResume swap) tr.
Proof.
  destruct w as [[st [rd sp un ht] rr g store] cs tr ths].
  unfold resumeSwap, pending. destruct (decide _) as [Hn|Hp].
  { exists [], un. simpl. rewrite app_nil_r.
    split_and!; [done | | constructor].
    by destruct (decide _). }
  destruct (resumeUnchargeSwap pend) as [swap|e].
  - unfold initiateSwap, log, set_client, set_executor, set_units. simpl.
    exists [EvResumeUnchargeSwap pend; EvInitiateSwap FromResume swap],
           (if sp then un else un ++ [swap]).
    rewrite <- app_assoc. simpl. split_and!.
    + by destruct sp.
    + destruct (decide _) as [|Hn]; [done | ]. destruct Hn.
      by apply dec_stable.
    + constructor; [by left | ].
      constructor; [right; by eexists | constructor].
  - exists [EvResumeUnchargeSwap pend], un. simpl. split_and!; [done | | ].
    + destruct (decide _) as [|Hn]; [done | ]. destruct Hn.
      by apply dec_stable.
    + constructor; [by left | constructor].
Qed.

(** Case analysis on a step, with the events of the step written out. *)
Ltac step_events H :=
  let i := fresh "i" in
  destruct H as [[i H] | H]; inversion H; subst; clear H;
  repeat match goal with
    | H : CompareAndSwapUint32 _ 0 1 = (true, _) |- _ =>
        apply CompareAndSwapUint32_true in H as [? ->]
    | H : CompareAndSwapUint32 _ 0 1 = (false, _) |- _ =>
        apply CompareAndSwapUint32_false in H as [? ->]
    | H : select_gate _ _ _ = SelGate |- _ =>
        apply select_gate_SelGate in H
    | H : select_gate _ _ _ = SelDone _ |- _ =>
        apply select_gate_SelDone in H
    | |- context [resumeSwap ?pend ?w] =>
        let tr := fresh "tr" in
        let u := fresh "u" in
        let Hcalls := fresh "Hcalls" in
        let Htr := fresh "Htr" in
        destruct (resumeSwap_events pend w) as (tr & u & -> & Hcalls & Htr)
    | |- context [initiateSwap ?o ?swap ?w] =>
        let u := fresh "u" in
        let Hu := fresh "Hu" in
        destruct (initiateSwap_shape o swap w) as (u & -> & Hu)
    | |- context [Uncharge_new ?server ?i ?c ?req ?w] =>
        let e := fresh "e" in
        let h := fresh "h" in
        destruct (Uncharge_new_cases server i c req w) as [[e ->] | [h ->]]
    end;
  unfold set_thread, spawn, log, set_ctxs, set_client;
  simpl.

Lemma pass_ok_resumed store gone pend rest calls :
  store = gone ++ pend :: rest →
  calls = filter pending gone →
  store = (gone ++ [pend]) ++ rest
  ∧ calls ++ (if decide (pending pend) then [pend] else [])
    = filter pending (gone ++ [pend]).
Proof.
  intros -> ->. split; [by rewrite <- app_assoc | ].
  by rewrite filter_app.
Qed.

Lemma InvPass_initial store : InvPass store (initial store).
Proof. split; simpl; try done. apply prefix_nil. Qed.

Lemma InvPass_step store w w' :
  Inv w → InvPass store w → step w w' → InvPass store w'.
Proof.
  intros HI [Hstore Hzero Hthread Hclosed Hprefix] Hs.
  destruct HI as [Hst Hfresh Hact Hpass Hrr Hgates _ _ _ _].
  split.
  - step_events Hs; intros Hopen; try (by apply Hstore);
      learn_threads; simpl in *; intuition congruence.
  - step_events Hs; rewrite ?resume_calls_app; simpl; rewrite ?app_nil_r;
      intros Hzero'; try (by apply Hzero); try lia.
    destruct (Hfresh Hzero') as (_ & _ & Hno). learn_threads.
    simpl in *. intuition congruence.
  - step_events Hs; rewrite ?resume_calls_app; simpl; rewrite ?app_nil_r;
      intros jj tj Hjj; try (by apply (Hthread jj));
      pool_cases; learn_threads; simpl in *;
      try done; try (by apply (Hthread jj)); try (by eauto);
      repeat match goal with
        | Ht : _ = _ ∧ resume_calls _ = [] |- _ => destruct Ht as [-> ?]
        | Ht : ∃ gone, _ = gone ++ _ ∧ _ |- _ => destruct Ht as (? & Hg & ?)
        end.
    + split; [ | done]. apply Hstore.
      destruct (resumeReady (client w)) eqn:Hready; [ | done].
      specialize (Hrr eq_refl). learn_threads. simpl in *.
      intuition congruence.
    + by exists [].
    + rewrite Hcalls. eexists. by eapply pass_ok_resumed.
    + assert (prespawn tj || alive tj = false) as Hother.
      { destruct (prespawn tj || alive tj) eqn:Ho; [ | done].
        match goal with
        | Hne : _ ≠ _, Hi : threads w !! ?i = Some (TResume (G_Resume _ _)),
          Hj : threads w !! ?j = Some tj |- _ =>
            destruct Hne; by apply (Hpass i j _ tj Hi Hj)
        end. }
      by destruct tj as [[]|[]|[]].
    + rewrite app_nil_r in Hg. by subst.
  - step_events Hs; rewrite ?resume_calls_app; simpl; rewrite ?app_nil_r;
      intros Hready; try (by apply Hclosed);
      try (specialize (Hrr Hready));
      learn_threads; simpl in *; try done; try (by apply Hclosed);
      intuition congruence.
  - step_events Hs; rewrite ?resume_calls_app; simpl; rewrite ?app_nil_r;
      try done.
    learn_threads. simpl in *.
    match goal with
    | Ht : ∃ gone, _ = gone ++ _ ∧ _ |- _ => destruct Ht as (gone & -> & Hc)
    end.
    rewrite Hcalls, Hc, filter_app. apply prefix_app.
    destruct (decide (pending pend)).
    + rewrite filter_cons_True by done. apply prefix_cons, prefix_nil.
    + apply prefix_nil.
Qed.

Lemma store_writes_app tr1 tr2 :
  store_writes (tr1 ++ tr2) = store_writes tr1 ++ store_writes tr2.
Proof. apply omap_app. Qed.

Lemma resume_events_store_writes pend tr :
  Forall (λ ev, ev = EvResumeUnchargeSwap pend
                ∨ ∃ swap, ev = EvInitiateSwap FromResume swap) tr →
  store_writes tr = [].
Proof.
  induction 1 as [|ev tr [->|[swap ->]] _ IH]; simpl; [done | done | done].
Qed.

Lemma no_record_before_gate_step w w' :
  Inv w →
  (resumeReady (client w) = false → store_writes (trace w) = []) →
  step w w' →
  resumeReady (client w') = false → store_writes (trace w') = [].
Proof.
  intros HI Hnone Hs. pose proof (inv_gates w HI) as Hgates.
  step_events Hs;
    repeat match goal with
      | Htr : Forall _ ?tr |- context [store_writes (_ ++ ?tr)] =>
          rewrite store_writes_app, (resume_events_store_writes _ tr Htr)
      end;
    rewrite ?store_writes_app; simpl; rewrite ?app_nil_r;
    intros Hopen; try (by apply Hnone);
    learn_threads; simpl in *; intuition congruence.
Qed.

Lemma run_Inv store w :
  rtc step (initial store) w →
  Inv w ∧ InvPass store w
  ∧ (resumeReady (client w) = false → store_writes (trace w) = []).
Proof.
  revert w.
  apply (rtc_ind_r (R:=step)
           (λ w, Inv w ∧ InvPass store w
                 ∧ (resumeReady (client w) = false →
                    store_writes (trace w) = []))
           (initial store)).
  - split_and!; [apply Inv_initial | apply InvPass_initial | done].
  - intros w1 w2 _ Hstep (HI & HP & Hnone). split_and!.
    + by apply (Inv_step w1).
    + by apply (InvPass_step store w1).
    + by apply (no_record_before_gate_step w1).
Qed.

(** X7.  The resume pass works on the records the store held when the
    client was made.  Until [resumeReady] is closed [Uncharge] creates no
    record, and the snapshot [Run] hands to the goroutine is the startup
    records; [resumeUnchargeSwap] is called on their Pending ones in order,
    never on another record and, records being distinct, never twice on
    one; and once [resumeReady] is closed it has been called on every one
    of them. *)
Theorem X7_resume_pass_over_startup_records store w :
  rtc step (initial store) w →
  resume_calls (trace w) `prefix_of` filter pending store
  ∧ (resumeReady (client w) = true →
     resume_calls (trace w) = filter pending store)
  ∧ (resumeReady (client w) = false → store_writes (trace w) = [])
  ∧ (∀ j c m pendingSwaps,
       threads w !! j = Some (TRun (R_Spawn c m pendingSwaps)) →
       pendingSwaps = store)
  ∧ (NoDup store → NoDup (resume_calls (trace w))).
Proof.
  intros Hs. destruct (run_Inv store w Hs) as (HI & HP & Hnone). split_and!.
  - apply (ip_prefix store w HP).
  - apply (ip_closed store w HP).
  - done.
  - intros j c m pendingSwaps Hj.
    by destruct (ip_thread store w HP j _ Hj).
  - intros Hnd. destruct (ip_prefix store w HP) as [k Hk].
    assert (NoDup (filter pending store)) as Hf by by apply NoDup_filter.
    rewrite Hk in Hf. by apply NoDup_app in Hf as [Hf _].
Qed.

(** ** One goroutine, one startup sequence *)

Lemma InvOnce_initial store : InvOnce (initial store).
Proof. split; simpl; try done. by left. Qed.

Lemma InvOnce_step w w' : Inv w → InvOnce w → step w w' → InvOnce w'.
Proof.
  intros [Hst Hfresh Hact Hpass Hrr Hgates Hwg _ _ _] [Howner Hwg01 Hexit] Hs.
  split.
  - step_events Hs; intros jj kk tj tk Hjj Hkk;
      try (by eapply Howner);
      try (destruct Hfresh as (_ & _ & Hth); [done | ]);
      unfold pass_owner in *; threads_solver.
  - step_events Hs; try done; learn_threads; simpl in *;
      intuition lia.
  - step_events Hs; intros jj tj Hjj;
      try (by eapply Hexit);
      try (destruct Hfresh as (_ & ? & Hth); [done | ]);
      unfold pass_owner in *; threads_solver.
Qed.

Lemma startup_calls_app tr1 tr2 :
  startup_calls (tr1 ++ tr2) = startup_calls tr1 ++ startup_calls tr2.
Proof. apply omap_app. Qed.

Lemma startup_calls_elem ev tr : ev ∈ startup_calls tr → ev ∈ tr.
Proof.
  unfold startup_calls. rewrite list_elem_of_omap.
  intros (ev' & Hin & Hev). by destruct ev'; simplify_eq.
Qed.

Lemma resume_events_startup pend tr :
  Forall (λ ev, ev = EvResumeUnchargeSwap pend
                ∨ ∃ swap, ev = EvInitiateSwap FromResume swap) tr →
  startup_calls tr = [].
Proof.
  induction 1 as [|ev tr [->|[swap ->]] _ IH]; simpl; [done | done | done].
Qed.

(** Bring what is read off the trace to the trace before the step. *)
Ltac trace_simpl :=
  repeat match goal with
    | Htr : Forall _ ?tr |- context [startup_calls (_ ++ ?tr)] =>
        rewrite startup_calls_app, (resume_events_startup _ tr Htr)
    end;
  rewrite ?submissions_app, ?startup_calls_app; simpl;
  rewrite ?app_nil_r.

Lemma InvCalls_initial store : InvCalls (initial store).
Proof.
  split; simpl; try done. apply prefix_nil.
Qed.

Lemma result_ok_app tr tr' t : result_ok tr t → result_ok (tr ++ tr') t.
Proof.
  destruct t as [| |[| | | |[h|] [e|]]]; simpl; try done.
  intros (swap & -> & Hin). exists swap. split; [done | ].
  rewrite elem_of_app. by left.
Qed.

Lemma InvCalls_step w w' : Inv w → InvCalls w → step w w' → InvCalls w'.
Proof.
  intros [Hst Hfresh Hact Hpass Hrr Hgates _ _ _ _]
         [Hzero Hquiet Hresult Hstartup Hprefix Hqueried Hclosed] Hs.
  split.
  - step_events Hs; trace_simpl; intros Hzero'; try (by apply Hzero);
      try lia;
      destruct (Hfresh Hzero') as (Hrr0 & _ & Hno);
      destruct (Hzero Hzero') as [Hs0 Hc0];
      learn_threads; simpl in *; try done; intuition congruence.
  - step_events Hs; trace_simpl; intros jj tj Hjj Hpre;
      try (by eapply Hquiet);
      pool_cases; learn_threads; learn_pairs; simpl in *;
      try done; try (by eapply Hquiet);
      try (by apply Hzero);
      try (by eauto).
    + exfalso. rewrite Hpre in *. simpl in *. intuition congruence.
    + exfalso.
      assert (resumeReady (client w) = true) as Hready by (by intuition).
      destruct (Hrr Hready jj tj Hjj). congruence.
  - step_events Hs; trace_simpl; intros jj tj Hjj;
      try (by eapply Hresult);
      pool_cases; learn_threads; simpl in *;
      try done; try (by eapply Hresult);
      try (eexists; split; [done | ]; rewrite elem_of_app, list_elem_of_singleton;
           by right);
      repeat (apply result_ok_app); by eauto.
  - step_events Hs; trace_simpl; intros jj tj Hjj Hactive;
      try (by eapply Hstartup);
      pool_cases; learn_threads; learn_pairs; simpl in *;
      try done; try (by eapply Hstartup);
      try (by apply Hzero);
      try (by intuition congruence).
    all: match goal with
         | Hx : true = true → startup_calls _ = _ |- _ =>
             by rewrite (Hx eq_refl)
         end.
  - step_events Hs; trace_simpl; try done;
      learn_threads; simpl in *;
      match goal with
      | Hx : true = true → startup_calls _ = _ |- _ =>
          rewrite (Hx eq_refl)
      end; simpl; by eexists.
  - step_events Hs; intros jj tj Hjj Hgo;
      try (by eapply Hqueried);
      pool_cases; learn_threads; simpl in *; try done;
      rewrite ?elem_of_app;
      try (by intuition).
    match goal with
    | Hx : true = true → startup_calls _ = _ |- _ =>
        pose proof (Hx eq_refl) as Hsc
    end.
    split; apply startup_calls_elem; rewrite Hsc; set_solver.
  - step_events Hs; intros Hready;
      try (by eapply Hclosed);
      learn_threads; simpl in *; try done;
      rewrite ?elem_of_app;
      try (by intuition).
Qed.

Lemma run_Inv_more store w :
  rtc step (initial store) w → Inv w ∧ InvOnce w ∧ InvCalls w.
Proof.
  revert w.
  apply (rtc_ind_r (R:=step) (λ w, Inv w ∧ InvOnce w ∧ InvCalls w)
           (initial store)).
  - split_and!;
      [apply Inv_initial | apply InvOnce_initial | apply InvCalls_initial].
  - intros w1 w2 _ Hstep (HI & HO & HC). split_and!.
    + by apply (Inv_step w1).
    + by apply (InvOnce_step w1).
    + by apply (InvCalls_step w1).
Qed.

(** X8.  The resume goroutine is started at most once per client: no
    world has two of them, and none has one beside a [Run] call that has
    yet to start it.  The counter of the wait group is 0 or 1: 1 from the
    start of the goroutine to its [wg.Done()], 0 once it has exited; it
    never goes below zero. *)
Theorem X8_one_resume_goroutine w :
  reachable w →
  (∀ j k tj tk,
     threads w !! j = Some tj → threads w !! k = Some tk →
     is_goroutine tj = true → is_goroutine tk = true → j = k)
  ∧ (∀ j k tj tk,
       threads w !! j = Some tj → threads w !! k = Some tk →
       is_goroutine tj = true → prespawn tk = false)
  ∧ (wg (client w) = 0 ∨ wg (client w) = 1)
  ∧ (∀ j t, threads w !! j = Some t → alive t = true → wg (client w) = 1)
  ∧ (∀ j t, threads w !! j = Some t → exited t = true → wg (client w) = 0).
Proof.
  intros [store Hs]. destruct (run_Inv_more store w Hs) as (HI & HO & _).
  split_and!.
  - intros j k tj tk Hj Hk Hgj Hgk.
    apply (io_owner w HO j k tj tk Hj Hk); unfold pass_owner.
    + rewrite Hgj. apply orb_true_r.
    + rewrite Hgk. apply orb_true_r.
  - intros j k tj tk Hj Hk Hgj. destruct (prespawn tk) eqn:Hp; [ | done].
    assert (j = k) as ->.
    { apply (io_owner w HO j k tj tk Hj Hk); unfold pass_owner.
      - rewrite Hgj. apply orb_true_r.
      - by rewrite Hp. }
    assert (tj = tk) as -> by congruence. by destruct tk as [[]|[]|[]].
  - apply (io_wg w HO).
  - intros j t Hj Ha. by apply (inv_wg w HI j t Hj).
  - apply (io_exited w HO).
Qed.

(** X9.  An [Uncharge] call that has returned has returned either a nil
    hash with an error, or, with a nil error, the hash of a swap that it
    handed to the executor before it returned, both gates having fired;
    never a hash with an error, never nil with nil. *)
Theorem X9_Uncharge_returns_hash_or_error w j h e :
  reachable w →
  threads w !! j = Some (TUncharge (U_Return h e)) →
  (h = None ∧ is_Some e)
  ∨ (e = None
     ∧ (∃ swap, h = Some (hash swap)
                ∧ EvInitiateSwap FromUncharge swap ∈ trace w)
     ∧ ready (executor_ (client w)) = true
     ∧ resumeReady (client w) = true).
Proof.
  intros [store Hs] Hj.
  destruct (run_Inv_more store w Hs) as (HI & _ & HC).
  pose proof (ic_result w HC j _ Hj) as Hres.
  destruct h as [h|], e as [e|]; simpl in Hres; try done.
  - right. destruct Hres as (swap & -> & Hin).
    destruct (inv_gates w HI j _ Hj) as (_ & Hr & Hrr).
    split_and!; [done | by exists swap | by apply Hr | by apply Hrr].
  - left. split; [done | by eexists].
Qed.

(** X10.  The startup sequence of [Run] happens at most once per client
    and in order: the calls made so far are a prefix of [GetInfo], the
    store query, [executor.run]; they are those the running [Run] call has
    reached; and whenever [resumeReady] is closed, or an [Uncharge] call is
    past its gates, [GetInfo] and the store query have been made. *)
Theorem X10_startup_sequence_once w :
  reachable w →
  startup_calls (trace w)
  `prefix_of` [EvGetInfo; EvGetUnchargeSwaps; EvExecutorRun]
  ∧ (∀ j t, threads w !! j = Some t → active t = true →
            startup_calls (trace w) = startup_done t)
  ∧ (resumeReady (client w) = true →
     EvGetInfo ∈ trace w ∧ EvGetUnchargeSwaps ∈ trace w)
  ∧ (∀ j t, threads w !! j = Some t → past_resumeReady t = true →
            EvGetInfo ∈ trace w ∧ EvGetUnchargeSwaps ∈ trace w).
Proof.
  intros [store Hs]. destruct (run_Inv_more store w Hs) as (HI & _ & HC).
  split_and!.
  - apply (ic_prefix w HC).
  - apply (ic_startup w HC).
  - apply (ic_closed w HC).
  - intros j t Hj Hp. apply (ic_closed w HC).
    by apply (inv_gates w HI j t Hj).
Qed.

(** ** A failed start *)

Lemma dead_step w w' :
  dead w → step w w' → dead w' ∧ Store (client w') = Store (client w).
Proof.
  intros (Hst & Hrr & Hsub & Hth) Hs. unfold dead.
  step_events Hs; trace_simpl; learn_threads; simpl in *;
    try (exfalso; intuition (congruence || lia));
    (split; [ | done]);
    (split_and!; [done .. | ]);
    intros jj tj Hjj; pool_cases; learn_threads; simpl in *;
    try done; by apply Hth.
Qed.

Lemma dead_steps w w' :
  dead w → rtc step w w' → dead w' ∧ Store (client w') = Store (client w).
Proof.
  intros Hd Hs. induction Hs as [|w w1 w2 Hs _ IH]; [done | ].
  destruct (dead_step w w1 Hd Hs) as [Hd1 Hst1].
  destruct (IH Hd1) as [Hd2 Hst2]. split; [done | congruence].
Qed.

Lemma failed_start_dead w i t w1 e :
  Inv w → InvCalls w →
  threads w !! i = Some t → prespawn t = true →
  tstep i w w1 → threads w1 !! i = Some (TRun (R_Return e)) →
  dead w1 ∧ Store (client w1) = Store (client w) ∧ is_Some e.
Proof.
  intros HI HC Hi Hp Hs Hi1.
  pose proof (begun_started w i t HI Hi) as Hst.
  pose proof (ic_quiet w HC i t Hi Hp) as Hq.
  assert (resumeReady (client w) = false) as Hopen.
  { destruct (resumeReady (client w)) eqn:Hr; [ | done].
    destruct (inv_resumeReady w HI Hr i t Hi). congruence. }
  assert (∀ jj tj, threads w !! jj = Some tj → jj ≠ i →
                   prespawn tj = false ∧ is_goroutine tj = false
                   ∧ past_resumeReady tj = false) as Hothers.
  { intros jj tj Hjj Hne.
    destruct (inv_gates w HI jj tj Hjj) as (Hc & _ & Hg).
    split_and!.
    - destruct (prespawn tj) eqn:Hpj; [ | done]. destruct Hne.
      apply (inv_pass w HI jj i tj t Hjj Hi); [by rewrite Hpj | by rewrite Hp].
    - destruct (alive tj) eqn:Ha.
      + destruct Hne.
        apply (inv_pass w HI jj i tj t Hjj Hi); [ | by rewrite Hp].
        rewrite Ha. apply orb_true_r.
      + destruct tj as [| [] |]; try done. simpl in Hc.
        specialize (Hc eq_refl). congruence.
    - destruct (past_resumeReady tj); [ | done].
      specialize (Hg eq_refl). congruence. }
  assert (Hst1 : started (client w) = 1) by (apply Hst; by destruct t as [[]| |]).
  unfold dead.
  inversion Hs; simplify_eq; simpl in *;
    try (rewrite list_lookup_insert_eq in Hi1
           by (by eapply lookup_lt_Some); simplify_eq);
    try (rewrite lookup_app_l in Hi1
           by (rewrite length_insert; by eapply lookup_lt_Some);
         rewrite list_lookup_insert_eq in Hi1
           by (by eapply lookup_lt_Some); simplify_eq);
    try done;
    trace_simpl;
    (split; [ | split; [done | by eexists]]);
    (split_and!; [done .. | ]);
    intros jj tj Hjj; pool_cases; try done; by eapply Hothers; eauto.
Qed.

(** X11.  A client whose [Run] returned an error before starting the
    resume goroutine (the [GetInfo] error or the store error) is of no more
    use: the error is not nil, the flag stays set, so [Run] cannot be
    called again with success; [resumeReady] is never closed, so no
    [Uncharge] call ever gets past its gates, let alone returns a hash;
    nothing is ever handed to the executor; and the store is never
    written. *)
Theorem X11_failed_start_is_final w i t w1 e w2 :
  reachable w →
  threads w !! i = Some t → prespawn t = true →
  tstep i w w1 → threads w1 !! i = Some (TRun (R_Return e)) →
  rtc step w1 w2 →
  is_Some e
  ∧ started (client w2) = 1
  ∧ resumeReady (client w2) = false
  ∧ submissions (trace w2) = []
  ∧ Store (client w2) = Store (client w)
  ∧ ∀ j tj, threads w2 !! j = Some tj →
            prespawn tj = false ∧ is_goroutine tj = false
            ∧ past_resumeReady tj = false.
Proof.
  intros [store Hr] Hi Hp Hs Hi1 Hs2.
  destruct (run_Inv_more store w Hr) as (HI & _ & HC).
  destruct (failed_start_dead w i t w1 e HI HC Hi Hp Hs Hi1)
    as (Hd1 & Hst1 & He).
  destruct (dead_steps w1 w2 Hd1 Hs2) as [(H1 & H2 & H3 & H4) Hst2].
  split_and!; try done. congruence.
Qed.

(** ** What [Run] returns after the executor *)

Lemma returning_step r i w w' t :
  threads w !! i = Some t → returning r t → step w w' →
  ∃ t', threads w' !! i = Some t' ∧ returning r t'.
Proof.
  intros Hi Hw Hs.
  step_cases Hs;
    try (by exists t);
    try (exists t; split; [by apply lookup_app_l_Some | done]);
    match goal with
    | |- context [<[?i0 := _]> _] =>
        destruct (decide (i0 = i)) as [->|Hne];
        [ simplify_eq; simpl in *; try done;
          eexists;
          (split; [ apply list_lookup_insert_eq; by eapply lookup_lt_Some | ])
        | exists t; (split; [ | done]);
          try apply lookup_app_l_Some;
          by rewrite list_lookup_insert_ne ]
    end.
  all: repeat case_match; simplify_eq; done.
Qed.

Lemma returning_steps r i w w' t :
  threads w !! i = Some t → returning r t → rtc step w w' →
  ∃ t', threads w' !! i = Some t' ∧ returning r t'.
Proof.
  intros Hi Hw Hs. revert t Hi Hw.
  induction Hs as [w|w w1 w2 Hs _ IH]; intros t Hi Hw; [by exists t | ].
  destruct (returning_step r i w w1 t Hi Hw Hs) as (t1 & Hi1 & Hw1).
  by apply (IH t1).
Qed.

(** X12.  Once [executor.run] has returned error [e], [Run] can only
    return [e] itself, except that [context.Canceled] becomes nil: any other
    error, the deadline error of an expired context among them, reaches the
    caller of [Run] unchanged, and [Run] returns nil in no other case. *)
Theorem X12_Run_returns_executor_error w i m e w' r :
  threads w !! i = Some (TRun (R_Shutdown m e)) →
  rtc step w w' →
  threads w' !! i = Some (TRun (R_Return r)) →
  r = happy_flow e
  ∧ (r = None ↔ e = None ∨ e = Some context_Canceled)
  ∧ (e ≠ Some context_Canceled → r = e).
Proof.
  intros Hi Hs Hi'.
  destruct (returning_steps (happy_flow e) i w w' _ Hi eq_refl Hs)
    as (t' & Ht' & Hr).
  rewrite Hi' in Ht'. injection Ht' as <-. simpl in Hr. subst r.
  unfold happy_flow. split_and!.
  - done.
  - destruct (decide (e = Some context_Canceled)) as [->|Hne].
    + split; [by right | done].
    + split; [by left | ]. by intros [->| ->].
  - intros Hne. by destruct (decide (e = Some context_Canceled)).
Qed.

(** ** The main context at shutdown *)

Lemma cancel_done c e cs m :
  is_Some (ctx_Err cs m) → is_Some (ctx_Err (cancel c e cs) m).
Proof.
  unfold ctx_Err. rewrite lookup_cancel.
  destruct (cs !! m) as [x|]; simpl; [ | by intros [? ?]].
  unfold cancel_entry. destruct (err x) eqn:Hx; [ | by intros [? ?]].
  by rewrite Hx.
Qed.

Lemma cancel_self e cs m :
  is_Some (cs !! m) → is_Some (ctx_Err (cancel m e cs) m).
Proof.
  unfold ctx_Err. rewrite lookup_cancel. intros [x ->]. simpl.
  unfold cancel_entry. destruct (err x) eqn:Hx; simpl.
  - rewrite Hx. by eexists.
  - rewrite bool_decide_eq_true_2 by done. simpl. by eexists.
Qed.

Lemma main_ok_app cs x t : main_ok cs t → main_ok (cs ++ [x]) t.
Proof.
  destruct t as [[]| |]; simpl; try done.
  - intros [y Hy]. exists y. by apply lookup_app_l_Some.
  - unfold ctx_Err. intros [y Hy].
    destruct (cs !! mainCtx) as [z|] eqn:Hz; [ | done].
    by rewrite (lookup_app_l_Some _ _ _ _ Hz).
  - unfold ctx_Err. intros [y Hy].
    destruct (cs !! mainCtx) as [z|] eqn:Hz; [ | done].
    by rewrite (lookup_app_l_Some _ _ _ _ Hz).
Qed.

Lemma main_ok_cancel c e cs t : main_ok cs t → main_ok (cancel c e cs) t.
Proof.
  destruct t as [[]| |]; simpl; try done; try apply cancel_done.
  rewrite lookup_cancel. intros [y ->]. by eexists.
Qed.

Lemma main_ok_step w w' :
  Inv w → (∀ j t, threads w !! j = Some t → main_ok (ctxs w) t) →
  step w w' →
  ∀ j t, threads w' !! j = Some t → main_ok (ctxs w') t.
Proof.
  intros HI Hmain Hs. pose proof (inv_ctx w HI) as Hctx.
  step_cases Hs; intros jj tj Hjj;
    try (by apply (Hmain jj));
    pool_cases; learn_threads; simpl in *; try done;
    try (by apply (Hmain jj));
    try (by apply main_ok_app; eauto);
    try (by apply main_ok_cancel; eauto);
    try (by apply cancel_self).
  match goal with
  | Hc : ∃ e, _ ∧ ctxs w !! ?m = Some _ |- is_Some (ctxs w !! ?m) =>
      destruct Hc as (? & _ & ->); by eexists
  end.
Qed.

Lemma run_main store w :
  rtc step (initial store) w →
  Inv w ∧ ∀ j t, threads w !! j = Some t → main_ok (ctxs w) t.
Proof.
  revert w.
  apply (rtc_ind_r (R:=step)
           (λ w, Inv w ∧ ∀ j t, threads w !! j = Some t → main_ok (ctxs w) t)
           (initial store)).
  - split; [apply Inv_initial | done].
  - intros w1 w2 _ Hstep [HI Hmain]. split.
    + by apply (Inv_step w1).
    + by apply (main_ok_step w1).
Qed.

(** X13.  [Run] cancels its main context before it waits: whenever a
    [Run] call is at [waitFinished] or at [wg.Wait()], its main context is
    done, so the executor's units and the resume goroutine it waits for
    have been told to stop. *)
Theorem X13_main_context_cancelled_before_waiting w j m e :
  reachable w →
  threads w !! j = Some (TRun (R_WaitFinished m e))
  ∨ threads w !! j = Some (TRun (R_WgWait m e)) →
  is_Some (ctx_Err (ctxs w) m).
Proof.
  intros [store Hs] Hj.
  destruct (run_main store w Hs) as [_ Hmain].
  destruct Hj as [Hj|Hj]; apply (Hmain j _ Hj).
Qed.

(** ** No panic in the goroutine *)

(** X14.  The goroutine of [Run] cannot panic on its two last statements:
    whenever it is about to run [close(s.resumeReady)] the channel is still
    open, and whenever it is about to run [wg.Done()] the counter is 1. *)
Theorem X14_goroutine_close_and_Done_are_safe w j :
  reachable w →
  (threads w !! j = Some (TResume G_Close) →
   resumeReady (client w) = false)
  ∧ (threads w !! j = Some (TResume G_Done) → wg (client w) = 1).
Proof.
  intros Hr. pose proof (reachable_Inv w Hr) as HI. split.
  - intros Hj. destruct (resumeReady (client w)) eqn:Hrr; [ | done].
    by destruct (inv_resumeReady w HI Hrr j _ Hj).
  - intros Hj. by apply (inv_wg w HI j _ Hj).
Qed.

(** ** [Run] returns after a cancellation *)

(** While the counter of the wait group is 1, the goroutine that holds it
    is among the threads. *)
Lemma wg_holder_step w w' :
  InvOnce w →
  (wg (client w) = 1 → ∃ j t, threads w !! j = Some t ∧ alive t = true) →
  step w w' →
  wg (client w') = 1 → ∃ j t, threads w' !! j = Some t ∧ alive t = true.
Proof.
  intros [_ Hwg01 _] Hlive Hs.
  step_events Hs; intros Hw1.
  all: try (destruct (Hlive Hw1) as (j & t & Hj & Ha)).
  all: try lia.
  all: try match goal with
    | |- ∃ _ _, (_ ++ [TResume (G_Resume _ _)]) !! _ = Some _ ∧ _ =>
        eexists _, _; split; [apply list_lookup_middle; reflexivity | done]
    end.
  all: match goal with
    | Hi : threads _ !! ?i = Some ?old
      |- ∃ _ _, <[?i := ?new]> _ !! _ = Some _ ∧ _ =>
        destruct (decide (j = i)) as [-> | Hne];
        [ simplify_eq; simpl in *; try done;
          exists i, new;
          (split; [apply list_lookup_insert_eq; by eapply lookup_lt_Some
                  | done])
        | exists j, t; split; [by rewrite list_lookup_insert_ne | done] ]
    | |- ∃ _ _, (_ ++ [_]) !! _ = Some _ ∧ _ =>
        exists j, t; split; [by apply lookup_app_l_Some | done]
    | |- _ => by exists j, t
    end.
Qed.

Lemma run_wg_holder store w :
  rtc step (initial store) w →
  wg (client w) = 1 → ∃ j t, threads w !! j = Some t ∧ alive t = true.
Proof.
  revert w.
  apply (rtc_ind_r (R:=step)
           (λ w, wg (client w) = 1 →
                 ∃ j t, threads w !! j = Some t ∧ alive t = true)
           (initial store)).
  - simpl. lia.
  - intros w1 w2 Hrun Hstep IH.
    destruct (run_Inv_more store w1 Hrun) as (_ & HO & _).
    by apply (wg_holder_step w1).
Qed.

Lemma tstep_steps i w w' : rtc (tstep i) w w' → rtc step w w'.
Proof.
  apply rtc_subrel. intros w1 w2 Hs. left. by exists i.
Qed.

(** The goroutine runs to its end by its own steps, whatever the other
    threads do meanwhile, and leaves them where they are. *)
Lemma goroutine_exits w j t :
  threads w !! j = Some t → alive t = true →
  ∃ w', rtc step w w'
        ∧ threads w' !! j = Some (TResume G_Exit)
        ∧ ∀ k, k ≠ j → threads w' !! k = threads w !! k.
Proof.
  intros Hj Ha.
  assert (j < length (threads w))%nat as Hlt by (by eapply lookup_lt_Some).
  destruct t as [ | [m swaps | | | ] | ]; try done.
  - eexists. split; [ | split].
    + apply (tstep_steps j).
      etrans; [by apply resume_pass_runs | ].
      eapply rtc_l.
      { apply (Resume_end _ _ m). simpl. apply list_lookup_insert_eq.
        by rewrite resumeSwaps_threads. }
      eapply rtc_l.
      { apply Resume_close. simpl. apply list_lookup_insert_eq.
        by rewrite length_insert, resumeSwaps_threads. }
      eapply rtc_l; [ | apply rtc_refl].
      apply Resume_wgDone. simpl. apply list_lookup_insert_eq.
      by rewrite !length_insert, resumeSwaps_threads.
    + simpl. apply list_lookup_insert_eq.
      by rewrite !length_insert, resumeSwaps_threads.
    + intros k Hk. simpl.
      rewrite !list_lookup_insert_ne by done.
      by rewrite resumeSwaps_threads.
  - eexists. split; [ | split].
    + apply (tstep_steps j).
      eapply rtc_l; [by apply Resume_close | ].
      eapply rtc_l; [ | apply rtc_refl].
      apply Resume_wgDone. simpl. by apply list_lookup_insert_eq.
    + simpl. apply list_lookup_insert_eq. by rewrite length_insert.
    + intros k Hk. simpl. by rewrite !list_lookup_insert_ne.
  - eexists. split; [ | split].
    + apply (tstep_steps j).
      eapply rtc_l; [ | apply rtc_refl]. by apply Resume_wgDone.
    + simpl. by apply list_lookup_insert_eq.
    + intros k Hk. simpl. by rewrite !list_lookup_insert_ne.
Qed.

(** The execution units of the executor exit one by one. *)
Lemma units_exit w :
  ∃ w', rtc step w w'
        ∧ units (executor_ (client w')) = []
        ∧ threads w' = threads w
        ∧ wg (client w') = wg (client w).
Proof.
  remember (units (executor_ (client w))) as us eqn:Hus.
  revert w Hus. induction us as [|swap us IH]; intros w Hus.
  - by exists w.
  - destruct (IH (set_client (set_executor (set_units (λ _, [] ++ us))) w))
      as (w' & Hsteps & Hunits & Hthreads & Hwg); [done | ].
    exists w'. split_and!; [ | done | done | done].
    eapply rtc_l; [ | exact Hsteps].
    right. by apply (Env_unit_exit w [] swap us).
Qed.

(** A [Run] call whose executor returned [context.Canceled] gets to its
    return, with nil: the goroutine finishes, the units exit,
    [waitFinished] and [wg.Wait] return. *)
Lemma Run_winds_down store w i t :
  rtc step (initial store) w →
  threads w !! i = Some t → winding_down t = true →
  ∃ w', rtc step w w' ∧ threads w' !! i = Some (TRun (R_Return None)).
Proof.
  intros Hrun Hi Hw.
  assert (∃ wa, rtc step w wa ∧ threads wa !! i = Some t
                ∧ wg (client wa) = 0) as (wa & Hsa & Hia & Hwga).
  { destruct (run_Inv_more store w Hrun) as (_ & [_ [Hwg0 | Hwg1] _] & _);
      [by exists w | ].
    destruct (run_wg_holder store w Hrun Hwg1) as (j & tj & Hj & Ha).
    assert (j ≠ i) as Hne.
    { intros ->. simplify_eq. by destruct t as [[]|[]|[]]. }
    destruct (goroutine_exits w j tj Hj Ha) as (wa & Hsa & Hja & Hothers).
    exists wa. split_and!; [done | by rewrite Hothers | ].
    destruct (run_Inv_more store wa) as (_ & [_ _ Hexit] & _);
      [by etrans | ].
    by apply (Hexit j _ Hja). }
  destruct (units_exit wa) as (wb & Hsb & Hunits & Hthreads & Hwgb).
  rewrite <- Hthreads in Hia. rewrite <- Hwgb in Hwga.
  assert (i < length (threads wb))%nat as Hlt by (by eapply lookup_lt_Some).
  assert (rtc step w wb) as Hswb by (by etrans).
  destruct t as [[ | | | | | | m [[]|] | m [] | m [] | []] | | ]; try done.
  - eexists. split.
    + etrans; [exact Hswb | ]. apply (tstep_steps i).
      eapply rtc_l; [by eapply Run_shutdown | ].
      eapply rtc_l.
      { eapply Run_waitFinished;
          [simpl; by apply list_lookup_insert_eq | done]. }
      eapply rtc_l; [ | apply rtc_refl].
      eapply Run_wgWait; [ | done].
      simpl. apply list_lookup_insert_eq. by rewrite length_insert.
    + simpl. apply list_lookup_insert_eq. by rewrite !length_insert.
  - eexists. split.
    + etrans; [exact Hswb | ]. apply (tstep_steps i).
      eapply rtc_l; [by eapply Run_waitFinished | ].
      eapply rtc_l; [ | apply rtc_refl].
      eapply Run_wgWait; [ | done].
      simpl. by apply list_lookup_insert_eq.
    + simpl. apply list_lookup_insert_eq. by rewrite !length_insert.
  - eexists. split.
    + etrans; [exact Hswb | ]. apply (tstep_steps i).
      eapply rtc_l; [ | apply rtc_refl]. by eapply Run_wgWait.
    + simpl. by apply list_lookup_insert_eq.
  - by exists wb.
Qed.

(** C4 (amended).  [Run] is in the executor's [run] and its caller's
    context is cancelled.  Then the main context is cancelled with it, so
    the executor can return on its cancellation signal, with
    [context.Canceled]; and when it has, then whatever happens next,
    [Run] has not returned an error and gets to its return, with nil; at
    its return no execution unit is left in the executor, the wait group
    is at zero and the resume goroutine has exited. *)
Theorem C4_cancelled_Run_returns_nil w i c m :
  reachable w →
  threads w !! i = Some (TRun (R_InExecutor c m)) →
  ctx_Err (ctxs w) c = Some context_Canceled →
  ctx_Err (ctxs w) m = Some context_Canceled
  ∧ (∃ w1, tstep i w w1
           ∧ threads w1 !! i
             = Some (TRun (R_Shutdown m (Some context_Canceled))))
  ∧ (∀ w1 w2,
       tstep i w w1 →
       threads w1 !! i = Some (TRun (R_Shutdown m (ctx_Err (ctxs w) m))) →
       rtc step w1 w2 →
       (∀ r, threads w2 !! i = Some (TRun (R_Return r)) → r = None)
       ∧ ∃ w3, rtc step w2 w3
               ∧ threads w3 !! i = Some (TRun (R_Return None)))
  ∧ (∀ w1 w2 w3 r,
       tstep i w w1 →
       threads w1 !! i = Some (TRun (R_Shutdown m (ctx_Err (ctxs w) m))) →
       rtc step w1 w2 →
       tstep i w2 w3 →
       threads w3 !! i = Some (TRun (R_Return r)) →
       r = None
       ∧ units (executor_ (client w2)) = []
       ∧ wg (client w2) = 0
       ∧ ∀ j t, threads w2 !! j = Some t → alive t = false).
Proof.
  intros Hr Hi Hc. pose proof (reachable_Inv w Hr) as HI.
  pose proof (main_context_follows w i c m _ HI Hi Hc) as Hm.
  split_and!; [done | | | ].
  - eexists. split; [eapply Executor_returns; [done | by constructor] | ].
    simpl.
    apply list_lookup_insert_eq. by eapply lookup_lt_Some.
  - intros w1 w2 Hs1 Hi1 Hs2. rewrite Hm in Hi1.
    destruct (winding_down_steps i w1 w2 _ Hi1 eq_refl Hs2) as (t2 & Hi2 & Hw2).
    split.
    + intros r Hret. simplify_eq. by destruct r as [[]|].
    + destruct Hr as [store Hrun].
      apply (Run_winds_down store w2 i t2); [ | done | done].
      etrans; [exact Hrun | ].
      eapply rtc_l; [left; by exists i | done].
  - intros w1 w2 w3 r Hs1 Hi1 Hs2 Hs3 Hi3. rewrite Hm in Hi1.
    assert (reachable w2) as Hr2.
    { apply (reachable_steps w w2); [done | ].
      eapply rtc_l; [left; by exists i | done]. }
    pose proof (reachable_Inv w2 Hr2) as HI2.
    destruct (winding_down_steps i w1 w2 _ Hi1 eq_refl Hs2) as (t2 & Hi2 & Hw2).
    assert (∃ m', t2 = TRun (R_WgWait m' None)
                  ∧ wg (client w2) = 0 ∧ r = None) as (m' & -> & Hwg & ->).
    { inversion Hs3; simplify_eq; simpl in *;
        try (rewrite list_lookup_insert_eq in Hi3
               by (by eapply lookup_lt_Some); simplify_eq);
        try (rewrite lookup_app_l in Hi3
               by (rewrite length_insert; by eapply lookup_lt_Some);
             rewrite list_lookup_insert_eq in Hi3
               by (by eapply lookup_lt_Some); simplify_eq);
        try done.
      destruct r; [done | ]. by eexists. }
    split_and!; [done | | done | ].
    + by apply (inv_fin w2 HI2 i _ Hi2).
    + intros j t Hj. destruct (alive t) eqn:Ha; [ | done].
      destruct (inv_wg w2 HI2 j t Hj) as [H1 _]. specialize (H1 Ha). lia.
Qed.

End Collaborators.

(** * Examples on a run of the client *)

Tactic Notation "env_step" open_constr(rule) :=
  eapply rtc_l; [right; eapply rule | ].

Tactic Notation "thread_step" constr(i) open_constr(rule) :=
  eapply rtc_l; [left; exists i; eapply rule; try reflexivity | ].

Lemma demo_cancelled_reachable : reachable demo_resume demo_cancelled.
Proof.
  exists demo_store.
  env_step Env_context.
  env_step Env_context.
  env_step (Env_Run _ 0%nat); [by eexists | ].
  env_step (Env_Uncharge _ 1%nat demo_request); [by eexists | ].
  thread_step 0%nat (Run_started demo_resume).
  thread_step 0%nat (Run_GetInfo demo_resume).
  thread_step 0%nat (Run_getUnchargeSwaps demo_resume).
  thread_step 0%nat (Run_go demo_resume).
  thread_step 0%nat (Run_executor_run demo_resume).
  thread_step 0%nat (Executor_listening demo_resume).
  env_step (Env_block _ 650).
  env_step (Env_cancel _ 1%nat context_Canceled); [reflexivity | by left | ].
  apply rtc_refl.
Qed.

Lemma demo_submitted_steps : rtc (step demo_resume) demo_cancelled demo_submitted.
Proof.
  thread_step 1%nat (Uncharge_ready demo_resume 1%nat _ 1%nat demo_request true).
  thread_step 2%nat (Resume_next demo_resume).
  thread_step 2%nat (Resume_next demo_resume).
  thread_step 2%nat (Resume_next demo_resume).
  thread_step 2%nat (Resume_end demo_resume).
  thread_step 2%nat (Resume_close demo_resume).
  thread_step 1%nat
    (Uncharge_resumeReady demo_resume 1%nat _ 1%nat demo_request true).
  thread_step 1%nat
    (Uncharge_newUnchargeSwap demo_resume 1%nat _ 1%nat demo_request
       demo_server).
  thread_step 1%nat (Uncharge_initiateSwap demo_resume).
  apply rtc_refl.
Qed.

Lemma demo_submitted_reachable : reachable demo_resume demo_submitted.
Proof.
  eapply reachable_steps;
    [apply demo_cancelled_reachable | apply demo_submitted_steps].
Qed.

Lemma demo_Run_cancelled_reachable : reachable demo_resume demo_Run_cancelled.
Proof.
  eapply reachable_steps; [apply demo_submitted_reachable | ].
  env_step (Env_cancel _ 0%nat context_Canceled); [reflexivity | by left | ].
  env_step (Env_Run _ 0%nat); [by eexists | ].
  apply rtc_refl.
Qed.

Lemma demo_drained_steps :
  rtc (step demo_resume) demo_executor_returned demo_drained.
Proof.
  thread_step 0%nat (Run_shutdown demo_resume).
  env_step (Env_unit_exit _ [] demo_swap3 [demo_swap7]); [reflexivity | ].
  env_step (Env_unit_exit _ [] demo_swap7 []); [reflexivity | ].
  thread_step 0%nat (Run_waitFinished demo_resume).
  thread_step 2%nat (Resume_wgDone demo_resume).
  apply rtc_refl.
Qed.

(** C1, on the run: [Uncharge] has returned the hash of swap 7; both gates
    had fired, and nothing is submitted after swap 7. *)
Lemma C1_witness :
  reachable demo_resume demo_submitted
  ∧ (ready (executor_ (client demo_submitted)) = true
     ∧ resumeReady (client demo_submitted) = true)
  ∧ Forall (from FromUncharge) (submissions []).
Proof.
  split; [exact demo_submitted_reachable | ].
  destruct (C1_Uncharge_submits_after_resume_pass demo_resume demo_submitted
              demo_submitted_reachable) as (Hgates & _ & _ & _ & Horder).
  split.
  - apply (Hgates 1%nat (TUncharge (U_Return (Some 7) None)));
      reflexivity.
  - apply (Horder
             [ EvGetInfo; EvGetUnchargeSwaps; EvExecutorRun;
               EvResumeUnchargeSwap (demo_record 1 StateInitiated);
               EvResumeUnchargeSwap (demo_record 3 StateHtlcBroadcast);
               EvInitiateSwap FromResume demo_swap3;
               EvNewUnchargeSwap demo_request;
               EvCreateUncharge demo_record7 ]
             demo_swap7 []).
    reflexivity.
Defined.

(** C2 as stated fails: record 1 is Pending when loaded, its resume fails,
    and the pass over it submits nothing; over the whole store the pass
    submits one swap for two Pending records. *)
Lemma C2_counterexample :
  pending (demo_record 1 StateInitiated)
  ∧ submissions
      (trace (resumeSwaps demo_resume [demo_record 1 StateInitiated]
                (initial [demo_record 1 StateInitiated])))
    = []
  ∧ filter pending demo_store
    = [demo_record 1 StateInitiated; demo_record 3 StateHtlcBroadcast]
  ∧ submissions (trace (resumeSwaps demo_resume demo_store (initial demo_store)))
    = [(FromResume, demo_swap3)].
Proof. split_and!; reflexivity. Qed.

(** C2 (amended), on the store of the run. *)
Lemma C2_witness :
  submissions (trace (resumeSwaps demo_resume demo_store (initial demo_store)))
  = [(FromResume, demo_swap3)]
  ∧ SwapState_Type (State (demo_record 2 StateSuccess)) = StateTypeTerminal
  ∧ resumeSwap demo_resume (demo_record 2 StateSuccess) (initial demo_store)
    = initial demo_store.
Proof.
  destruct (C2_resume_pass_submits_resumable_pending demo_resume)
    as [Hsub Hterm].
  split_and!.
  - rewrite Hsub. reflexivity.
  - reflexivity.
  - apply Hterm. reflexivity.
Defined.

(** C3, on the run: the second [Run] call, thread 3, fails. *)
Lemma C3_witness :
  reachable demo_resume demo_Run_cancelled
  ∧ threads demo_Run_cancelled !! 0%nat = Some (TRun (R_InExecutor 0 2))
  ∧ threads demo_Run_cancelled !! 3%nat = Some (TRun (R_Start 0))
  ∧ tstep demo_resume 3 demo_Run_cancelled
      (set_thread 3 (TRun (R_Return (Some errStartedOnce))) demo_Run_cancelled)
  ∧ client (set_thread 3 (TRun (R_Return (Some errStartedOnce)))
              demo_Run_cancelled)
    = client demo_Run_cancelled.
Proof.
  assert (tstep demo_resume 3 demo_Run_cancelled
            (set_thread 3 (TRun (R_Return (Some errStartedOnce)))
               demo_Run_cancelled)) as Hstep.
  { eapply (Run_started_twice demo_resume 3%nat); reflexivity. }
  split_and!;
    [exact demo_Run_cancelled_reachable | reflexivity | reflexivity
    | exact Hstep | ].
  apply (C3_second_Run_fails_without_effect demo_resume demo_Run_cancelled
           0%nat (TRun (R_InExecutor 0 2)) 3%nat 0%nat _
           demo_Run_cancelled_reachable eq_refl eq_refl eq_refl Hstep).
Defined.

(** C4, as the claim states it, fails at startup: the caller cancels its
    context while [Run] is about to call [GetInfo]; [GetInfo] fails on the
    cancelled context, and [Run] returns that failure as an error (lines
    132-135). *)
Lemma C4_counterexample :
  reachable demo_resume demo_GetInfo_cancelled
  ∧ threads demo_GetInfo_cancelled !! 0%nat = Some (TRun (R_GetInfo 0))
  ∧ ctx_Err (ctxs demo_GetInfo_cancelled) 0 = Some context_Canceled
  ∧ tstep demo_resume 0 demo_GetInfo_cancelled demo_GetInfo_failed
  ∧ threads demo_GetInfo_failed !! 0%nat
    = Some (TRun (R_Return
                    (Some (fmt_Errorf "GetInfo error: %v"
                             (collaborator_error
                                "rpc error: code = Canceled desc = context canceled"))))).
Proof.
  split_and!; [ | reflexivity | reflexivity | | reflexivity].
  - exists demo_store.
    env_step Env_context.
    env_step (Env_Run _ 0%nat); [by eexists | ].
    thread_step 0%nat (Run_started demo_resume).
    env_step (Env_cancel _ 0%nat context_Canceled);
      [reflexivity | by left | ].
    apply rtc_refl.
  - eapply (Run_GetInfo_error demo_resume 0%nat). reflexivity.
Qed.

(** C4 (amended), on the run: context 0 is cancelled while [Run] is in the
    executor; the executor returns, its units and the goroutine exit, and
    [Run] returns nil. *)
Lemma C4_witness :
  reachable demo_resume demo_Run_cancelled
  ∧ threads demo_Run_cancelled !! 0%nat = Some (TRun (R_InExecutor 0 2))
  ∧ ctx_Err (ctxs demo_Run_cancelled) 0 = Some context_Canceled
  ∧ tstep demo_resume 0 demo_Run_cancelled demo_executor_returned
  ∧ (∃ w3, rtc (step demo_resume) demo_executor_returned w3
           ∧ threads w3 !! 0%nat = Some (TRun (R_Return None)))
  ∧ rtc (step demo_resume) demo_executor_returned demo_drained
  ∧ tstep demo_resume 0 demo_drained
      (set_thread 0 (TRun (R_Return None))
         (set_ctxs (cancel 2 context_Canceled) demo_drained))
  ∧ ((None : option error) = None
     ∧ units (executor_ (client demo_drained)) = []
     ∧ wg (client demo_drained) = 0
     ∧ ∀ j t, threads demo_drained !! j = Some t → alive t = false).
Proof.
  assert (tstep demo_resume 0 demo_Run_cancelled demo_executor_returned)
    as Hreturned.
  { eapply (Executor_returns demo_resume 0%nat);
      [reflexivity | by apply run_cancelled]. }
  assert (tstep demo_resume 0 demo_drained
            (set_thread 0 (TRun (R_Return None))
               (set_ctxs (cancel 2 context_Canceled) demo_drained)))
    as Hreturn.
  { eapply (Run_wgWait demo_resume 0%nat); reflexivity. }
  split; [exact demo_Run_cancelled_reachable | ].
  split; [reflexivity | ].
  split; [reflexivity | ].
  split; [exact Hreturned | ].
  destruct (C4_cancelled_Run_returns_nil demo_resume demo_Run_cancelled
              0%nat 0%nat 2%nat demo_Run_cancelled_reachable eq_refl eq_refl)
    as (_ & _ & Hreturns & Hnil).
  split.
  { apply (Hreturns demo_executor_returned demo_executor_returned
             Hreturned eq_refl).
    apply rtc_refl. }
  split; [exact demo_drained_steps | ].
  split; [exact Hreturn | ].
  apply (Hnil demo_executor_returned demo_drained _ None Hreturned eq_refl
           demo_drained_steps Hreturn eq_refl).
Defined.



(** C6, on the spec's example: fee base 100, rate 0.01, amount 50_000. *)
Lemma C6_witness :
  UnchargeQuote demo_sweeper 7 (inl demo_terms)
    {| QuoteAmount := 50000; SweepConfTarget := 6 |} (initial demo_store)
  = (inl {| SwapFee := 600; MinerFee := 42; PrepayAmount := 1000 |},
     log (EvGetSweepFee 7 6) (log EvGetUnchargeTerms (initial demo_store)))
  ∧ SwapFee {| SwapFee := 600; MinerFee := 42; PrepayAmount := 1000 |} = 600.
Proof.
  split; [reflexivity | ].
  destruct (C6_swap_fee_base_plus_rate demo_sweeper 7 demo_terms
              {| QuoteAmount := 50000; SweepConfTarget := 6 |}
              (initial demo_store) _ _ eq_refl) as (_ & _ & Hexample).
  apply Hexample; reflexivity.
Defined.

(** C8 as stated fails, on the run: context 1 is cancelled while
    [resumeReady] has not fired; the first select sees the executor ready
    and takes that case; the goroutine then closes [resumeReady], the second
    select takes the gate, and [Uncharge] builds, persists and submits swap
    7 and returns its hash with a nil error. *)
Lemma C8_counterexample :
  reachable demo_resume demo_cancelled
  ∧ threads demo_cancelled !! 1%nat
    = Some (TUncharge (U_Wait1 1 demo_request))
  ∧ ctx_Err (ctxs demo_cancelled) 1 = Some context_Canceled
  ∧ resumeReady (client demo_cancelled) = false
  ∧ rtc (step demo_resume) demo_cancelled demo_submitted
  ∧ threads demo_submitted !! 1%nat
    = Some (TUncharge (U_Return (Some 7) None))
  ∧ Store (client demo_submitted)
    = Store (client demo_cancelled) ++ [demo_record7]
  ∧ submissions (trace demo_submitted)
    = [(FromResume, demo_swap3); (FromUncharge, demo_swap7)].
Proof.
  split; [exact demo_cancelled_reachable | ].
  split; [reflexivity | ].
  split; [reflexivity | ].
  split; [reflexivity | ].
  split; [exact demo_submitted_steps | ].
  split_and!; reflexivity.
Qed.

(** C8 (amended): an [Uncharge] at its first select, the executor not
    ready, its context cancelled. *)
Lemma C8_witness :
  threads demo_waiting !! 0%nat = Some (TUncharge (U_Wait1 0 demo_request))
  ∧ ctx_Err (ctxs demo_waiting) 0 = Some context_Canceled
  ∧ ready (executor_ (client demo_waiting)) = false
  ∧ tstep demo_resume 0 demo_waiting
      (set_thread 0 (TUncharge (U_Return None (Some context_Canceled)))
         demo_waiting)
  ∧ (∀ w', tstep demo_resume 0 demo_waiting w' →
           w' = set_thread 0
                  (TUncharge (U_Return None (Some context_Canceled)))
                  demo_waiting)
  ∧ waitForInitialized true false (Some context_Canceled) true true
    = WaitReturned (Some context_Canceled).
Proof.
  assert (tstep demo_resume 0 demo_waiting
            (set_thread 0 (TUncharge (U_Return None (Some context_Canceled)))
               demo_waiting)) as Hstep.
  { eapply (Uncharge_ready_done demo_resume 0%nat _ 0%nat demo_request false);
      reflexivity. }
  destruct (C8_Uncharge_returns_context_error demo_resume)
    as (Hfirst & _ & Hsnapshot).
  split; [reflexivity | ].
  split; [reflexivity | ].
  split; [reflexivity | ].
  split; [exact Hstep | ].
  split.
  - intros w'.
    apply (Hfirst demo_waiting 0%nat 0%nat demo_request context_Canceled w');
      reflexivity.
  - apply (Hsnapshot true false context_Canceled true true). reflexivity.
Defined.

(** C9, on the run: the goroutine is at the head of its pass over the
    store; record 1 fails to resume, record 3 is still processed. *)
Lemma C9_witness :
  threads demo_cancelled !! 2%nat = Some (TResume (G_Resume 2 demo_store))
  ∧ resume_calls (trace (resumeSwaps demo_resume demo_store demo_cancelled))
    = [demo_record 1 StateInitiated; demo_record 3 StateHtlcBroadcast]
  ∧ ∃ w', rtc (tstep demo_resume 2) demo_cancelled w'
          ∧ threads w' !! 2%nat = Some (TResume G_Exit)
          ∧ resumeReady (client w') = true
          ∧ trace w' = trace (resumeSwaps demo_resume demo_store demo_cancelled).
Proof.
  destruct (C9_resume_pass_survives_failures demo_resume demo_cancelled
              2%nat 2%nat demo_store eq_refl) as (Hcalls & Hruns & _).
  split; [reflexivity | ].
  split; [ | exact Hruns].
  rewrite Hcalls. reflexivity.
Defined.

(** C10, on the run: [Run] began, so the flag is 1 and stays so, and the
    second call, thread 3, fails. *)
Lemma C10_witness :
  reachable demo_resume demo_submitted
  ∧ threads demo_submitted !! 0%nat = Some (TRun (R_InExecutor 0 2))
  ∧ rtc (step demo_resume) demo_submitted demo_Run_cancelled
  ∧ threads demo_Run_cancelled !! 3%nat = Some (TRun (R_Start 0))
  ∧ tstep demo_resume 3 demo_Run_cancelled
      (set_thread 3 (TRun (R_Return (Some errStartedOnce))) demo_Run_cancelled)
  ∧ started (client demo_Run_cancelled) = 1
  ∧ started
      (client (set_thread 3 (TRun (R_Return (Some errStartedOnce)))
                 demo_Run_cancelled))
    = 1.
Proof.
  assert (rtc (step demo_resume) demo_submitted demo_Run_cancelled) as Hsteps.
  { env_step (Env_cancel _ 0%nat context_Canceled);
      [reflexivity | by left | ].
    env_step (Env_Run _ 0%nat); [by eexists | ].
    apply rtc_refl. }
  assert (tstep demo_resume 3 demo_Run_cancelled
            (set_thread 3 (TRun (R_Return (Some errStartedOnce)))
               demo_Run_cancelled)) as Hstep.
  { eapply (Run_started_twice demo_resume 3%nat); reflexivity. }
  destruct (C10_started_is_set_first_and_never_reset demo_resume
              demo_submitted demo_submitted_reachable)
    as (_ & Hkept & Hfails).
  split; [exact demo_submitted_reachable | ].
  split; [reflexivity | ].
  split; [exact Hsteps | ].
  split; [reflexivity | ].
  split; [exact Hstep | ].
  split.
  - apply (Hkept demo_Run_cancelled); [reflexivity | exact Hsteps].
  - apply (Hfails 0%nat (TRun (R_InExecutor 0 2)) demo_Run_cancelled
             3%nat 0%nat _ eq_refl eq_refl Hsteps eq_refl Hstep).
Defined.

(** * Examples for the further properties *)

Lemma demo_cancelled_run :
  rtc (step demo_resume) (initial demo_store) demo_cancelled.
Proof.
  env_step Env_context.
  env_step Env_context.
  env_step (Env_Run _ 0%nat); [by eexists | ].
  env_step (Env_Uncharge _ 1%nat demo_request); [by eexists | ].
  thread_step 0%nat (Run_started demo_resume).
  thread_step 0%nat (Run_GetInfo demo_resume).
  thread_step 0%nat (Run_getUnchargeSwaps demo_resume).
  thread_step 0%nat (Run_go demo_resume).
  thread_step 0%nat (Run_executor_run demo_resume).
  thread_step 0%nat (Executor_listening demo_resume).
  env_step (Env_block _ 650).
  env_step (Env_cancel _ 1%nat context_Canceled); [reflexivity | by left | ].
  apply rtc_refl.
Qed.

Lemma demo_submitted_run :
  rtc (step demo_resume) (initial demo_store) demo_submitted.
Proof. etrans; [apply demo_cancelled_run | apply demo_submitted_steps]. Qed.

Lemma demo_starting_reachable : reachable demo_resume demo_starting.
Proof.
  exists demo_store.
  env_step Env_context.
  env_step Env_context.
  env_step (Env_Run _ 0%nat); [by eexists | ].
  env_step (Env_Uncharge _ 1%nat demo_request); [by eexists | ].
  thread_step 0%nat (Run_started demo_resume).
  apply rtc_refl.
Qed.

Lemma demo_drained_reachable : reachable demo_resume demo_drained.
Proof.
  eapply reachable_steps; [apply demo_Run_cancelled_reachable | ].
  eapply rtc_l; [ | apply demo_drained_steps].
  left. exists 0%nat.
  eapply (Executor_returns demo_resume 0%nat);
    [reflexivity | by apply run_cancelled].
Qed.

(** X1, on the spec's example. *)
Lemma X1_witness :
  UnchargeQuote demo_sweeper 7 (inl demo_terms)
    {| QuoteAmount := 50000; SweepConfTarget := 6 |} (initial demo_store)
  = (inl {| SwapFee := 600; MinerFee := 42; PrepayAmount := 1000 |},
     log (EvGetSweepFee 7 6) (log EvGetUnchargeTerms (initial demo_store))).
Proof.
  apply (X1_UnchargeQuote_succeeds_iff demo_sweeper 7 (inl demo_terms)
           {| QuoteAmount := 50000; SweepConfTarget := 6 |}
           (initial demo_store)).
  exists demo_terms, 42. split_and!; try reflexivity; simpl; lia.
Defined.

(** X2, on an amount below the minimum of the spec's example. *)
Lemma X2_witness :
  UnchargeQuote demo_sweeper 7 (inl demo_terms)
    {| QuoteAmount := 5000; SweepConfTarget := 6 |} (initial demo_store)
  = (inr ErrSwapAmountTooLow, log EvGetUnchargeTerms (initial demo_store))
  ∧ ((inl demo_terms : result UnchargeTerms) = inr ErrSwapAmountTooLow
     ∧ Client_UnchargeTerms (inl demo_terms) (initial demo_store)
       = (inr ErrSwapAmountTooLow,
          log EvGetUnchargeTerms (initial demo_store))
     ∧ log EvGetUnchargeTerms (initial demo_store)
       = log EvGetUnchargeTerms (initial demo_store)
     ∨ (∃ terms, (inl demo_terms : result UnchargeTerms) = inl terms
                 ∧ 5000 < MinSwapAmount terms)
     ∨ (∃ terms, (inl demo_terms : result UnchargeTerms) = inl terms
                 ∧ MaxSwapAmount terms < 5000)
     ∨ (∃ terms, (inl demo_terms : result UnchargeTerms) = inl terms
                 ∧ MinSwapAmount terms ≤ 5000 ≤ MaxSwapAmount terms)).
Proof.
  split; [reflexivity | ].
  destruct (X2_UnchargeQuote_errors demo_sweeper 7 (inl demo_terms)
              {| QuoteAmount := 5000; SweepConfTarget := 6 |}
              (initial demo_store) ErrSwapAmountTooLow _ eq_refl)
    as [H | [(terms & H & Hlt & _) | [(terms & H & _ & Hgt & _)
                                     | (terms & H & Hin & _)]]].
  - by left.
  - right; left. by exists terms.
  - right; right; left. by exists terms.
  - right; right; right. by exists terms.
Defined.

(** X3, on snapshots: both gates fired and a live context; one gate open
    and a live context. *)
Lemma X3_witness :
  waitForInitialized true true None false false = WaitReturned None
  ∧ waitForInitialized true false None true true = WaitBlocked.
Proof.
  destruct (X3_waitForInitialized_outcomes true true None false false)
    as (_ & Hnil & _ & _).
  destruct (X3_waitForInitialized_outcomes true false None true true)
    as (_ & _ & Hblocked & _).
  split.
  - apply Hnil; reflexivity.
  - apply Hblocked. split; [reflexivity | by right].
Defined.

(** X4, on the store of the run, cut after its first record. *)
Lemma X4_witness :
  resumeSwaps demo_resume demo_store (initial demo_store)
  = resumeSwaps demo_resume
      [demo_record 2 StateSuccess; demo_record 3 StateHtlcBroadcast]
      (resumeSwaps demo_resume [demo_record 1 StateInitiated]
         (initial demo_store))
  ∧ Forall (λ pend, ¬ pending pend) [demo_record 2 StateSuccess]
  ∧ resumeSwaps demo_resume [demo_record 2 StateSuccess] (initial demo_store)
    = initial demo_store.
Proof.
  assert (Forall (λ pend, ¬ pending pend) [demo_record 2 StateSuccess])
    as Hterminal.
  { constructor; [ | constructor]. unfold pending. simpl. discriminate. }
  split.
  { apply (X4_resumeSwaps_composes demo_resume
             [demo_record 1 StateInitiated]
             [demo_record 2 StateSuccess; demo_record 3 StateHtlcBroadcast]
             (initial demo_store)). }
  split; [exact Hterminal | ].
  destruct (X4_resumeSwaps_composes demo_resume
              [demo_record 2 StateSuccess] [] (initial demo_store))
    as (_ & Hnoop & _).
  apply Hnoop. exact Hterminal.
Defined.

(** X5: the store opens and the dial fails. *)
Lemma X5_witness :
  (NewClient_call (inl demo_store) (Some (collaborator_error "dial failed"))
     {| store_open := false; server_open := false |}).1
  = inr (collaborator_error "dial failed")
  ∧ store_open
      (NewClient_call (inl demo_store)
         (Some (collaborator_error "dial failed"))
         {| store_open := false; server_open := false |}).2
    = true.
Proof.
  destruct (X5_NewClient_outcomes (inl demo_store)
              (Some (collaborator_error "dial failed"))
              {| store_open := false; server_open := false |})
    as (_ & Hdial & _).
  destruct (Hdial demo_store (collaborator_error "dial failed")
              eq_refl eq_refl) as (Herr & Hopen & _).
  split; [exact Herr | exact Hopen].
Defined.

(** X6: two writes, the second one short. *)
Lemma X6_witness :
  (logWriter_Writes [(2%nat, [Byte.x61; Byte.x62]); (1%nat, [Byte.x63; Byte.x64])] []).1
  = [(2%nat, None); (2%nat, None)]
  ∧ Forall (λ ap : nat * list Byte.byte, length ap.2 ≤ ap.1)%nat
      [(2%nat, [Byte.x61; Byte.x62])]
  ∧ (logWriter_Writes [(2%nat, [Byte.x61; Byte.x62])] []).2 = [Byte.x61; Byte.x62].
Proof.
  assert (Forall (λ ap : nat * list Byte.byte, length ap.2 ≤ ap.1)%nat
            [(2%nat, [Byte.x61; Byte.x62])]) as Hfull.
  { constructor; [simpl; lia | constructor]. }
  split.
  { destruct (X6_logWriter_reports_full_writes
                [(2%nat, [Byte.x61; Byte.x62]); (1%nat, [Byte.x63; Byte.x64])] [])
      as (Hns & _). exact Hns. }
  split; [exact Hfull | ].
  destruct (X6_logWriter_reports_full_writes [(2%nat, [Byte.x61; Byte.x62])] [])
    as (_ & _ & _ & _ & _ & Hall).
  apply Hall. exact Hfull.
Defined.

(** X7, on the run: the pass called [resumeUnchargeSwap] on records 1 and
    3, the Pending ones of the startup store. *)
Lemma X7_witness :
  rtc (step demo_resume) (initial demo_store) demo_submitted
  ∧ resumeReady (client demo_submitted) = true
  ∧ resume_calls (trace demo_submitted) = filter pending demo_store
  ∧ NoDup (resume_calls (trace demo_submitted)).
Proof.
  destruct (X7_resume_pass_over_startup_records demo_resume demo_store
              demo_submitted demo_submitted_run)
    as (_ & Hall & _ & _ & Honce).
  split; [exact demo_submitted_run | ].
  split; [reflexivity | ].
  split; [apply Hall; reflexivity | ].
  apply Honce. apply (bool_decide_unpack (NoDup demo_store)). reflexivity.
Defined.

(** X8, on the run: thread 2 is the only goroutine; it has yet to call
    [wg.Done()]. *)
Lemma X8_witness :
  reachable demo_resume demo_submitted
  ∧ threads demo_submitted !! 2%nat = Some (TResume G_Done)
  ∧ wg (client demo_submitted) = 1.
Proof.
  destruct (X8_one_resume_goroutine demo_resume demo_submitted
              demo_submitted_reachable) as (_ & _ & _ & Halive & _).
  split; [exact demo_submitted_reachable | ].
  split; [reflexivity | ].
  apply (Halive 2%nat (TResume G_Done)); reflexivity.
Defined.

(** X9, on the run: [Uncharge] returned the hash of swap 7. *)
Lemma X9_witness :
  reachable demo_resume demo_submitted
  ∧ threads demo_submitted !! 1%nat
    = Some (TUncharge (U_Return (Some 7) None))
  ∧ ((Some 7 : option lntypes_Hash) = None ∧ is_Some (None : option error)
     ∨ (None : option error) = None
       ∧ (∃ swap, Some 7 = Some (hash swap)
                  ∧ EvInitiateSwap FromUncharge swap ∈ trace demo_submitted)
       ∧ ready (executor_ (client demo_submitted)) = true
       ∧ resumeReady (client demo_submitted) = true).
Proof.
  split; [exact demo_submitted_reachable | ].
  split; [reflexivity | ].
  apply (X9_Uncharge_returns_hash_or_error demo_resume demo_submitted
           1%nat (Some 7) None demo_submitted_reachable eq_refl).
Defined.

(** X10, on the run: the three startup calls, once each. *)
Lemma X10_witness :
  reachable demo_resume demo_submitted
  ∧ threads demo_submitted !! 0%nat = Some (TRun (R_InExecutor 0 2))
  ∧ startup_calls (trace demo_submitted)
    = [EvGetInfo; EvGetUnchargeSwaps; EvExecutorRun].
Proof.
  destruct (X10_startup_sequence_once demo_resume demo_submitted
              demo_submitted_reachable) as (_ & Hdone & _).
  split; [exact demo_submitted_reachable | ].
  split; [reflexivity | ].
  apply (Hdone 0%nat (TRun (R_InExecutor 0 2))); reflexivity.
Defined.

(** X11: [GetInfo] fails on the first [Run]; the [Uncharge] call that was
    waiting can then only give up, when its context is cancelled. *)
Lemma X11_witness :
  reachable demo_resume demo_starting
  ∧ threads demo_starting !! 0%nat = Some (TRun (R_GetInfo 0))
  ∧ tstep demo_resume 0 demo_starting demo_failed
  ∧ rtc (step demo_resume) demo_failed
      (set_ctxs (cancel 1 context_Canceled) demo_failed)
  ∧ resumeReady
      (client (set_ctxs (cancel 1 context_Canceled) demo_failed)) = false
  ∧ submissions (trace (set_ctxs (cancel 1 context_Canceled) demo_failed))
    = [].
Proof.
  assert (tstep demo_resume 0 demo_starting demo_failed) as Hfail.
  { eapply (Run_GetInfo_error demo_resume 0%nat). reflexivity. }
  assert (rtc (step demo_resume) demo_failed
            (set_ctxs (cancel 1 context_Canceled) demo_failed)) as Hlater.
  { env_step (Env_cancel _ 1%nat context_Canceled);
      [reflexivity | by left | ].
    apply rtc_refl. }
  destruct (X11_failed_start_is_final demo_resume demo_starting 0%nat
              (TRun (R_GetInfo 0)) demo_failed _ _
              demo_starting_reachable eq_refl eq_refl Hfail eq_refl Hlater)
    as (_ & _ & Hopen & Hnone & _).
  split; [exact demo_starting_reachable | ].
  split; [reflexivity | ].
  split; [exact Hfail | ].
  split; [exact Hlater | ].
  split; [exact Hopen | exact Hnone].
Defined.

(** X12, on the run: the executor returned [context.Canceled]; [Run]
    returns nil. *)
Lemma X12_witness :
  threads demo_executor_returned !! 0%nat
  = Some (TRun (R_Shutdown 2 (Some context_Canceled)))
  ∧ rtc (step demo_resume) demo_executor_returned
      (set_thread 0 (TRun (R_Return None))
         (set_ctxs (cancel 2 context_Canceled) demo_drained))
  ∧ (None : option error) = happy_flow (Some context_Canceled).
Proof.
  assert (rtc (step demo_resume) demo_executor_returned
            (set_thread 0 (TRun (R_Return None))
               (set_ctxs (cancel 2 context_Canceled) demo_drained)))
    as Hsteps.
  { etrans; [apply demo_drained_steps | ].
    thread_step 0%nat (Run_wgWait demo_resume).
    apply rtc_refl. }
  split; [reflexivity | ].
  split; [exact Hsteps | ].
  destruct (X12_Run_returns_executor_error demo_resume
              demo_executor_returned 0%nat 2%nat (Some context_Canceled) _
              None eq_refl Hsteps eq_refl) as [Hresult _].
  exact Hresult.
Defined.

(** X13, on the run: [Run] is at [wg.Wait()], its main context, 2, is
    done. *)
Lemma X13_witness :
  reachable demo_resume demo_drained
  ∧ threads demo_drained !! 0%nat = Some (TRun (R_WgWait 2 None))
  ∧ is_Some (ctx_Err (ctxs demo_drained) 2).
Proof.
  split; [exact demo_drained_reachable | ].
  split; [reflexivity | ].
  apply (X13_main_context_cancelled_before_waiting demo_resume demo_drained
           0%nat 2%nat None demo_drained_reachable).
  right. reflexivity.
Defined.

(** X14, on the run: the goroutine is about to call [wg.Done()]. *)
Lemma X14_witness :
  reachable demo_resume demo_submitted
  ∧ threads demo_submitted !! 2%nat = Some (TResume G_Done)
  ∧ wg (client demo_submitted) = 1.
Proof.
  destruct (X14_goroutine_close_and_Done_are_safe demo_resume demo_submitted
              2%nat demo_submitted_reachable) as [_ Hdone].
  split; [exact demo_submitted_reachable | ].
  split; [reflexivity | ].
  apply Hdone. reflexivity.
Defined.
